(** * Embedding-and-indexing pipeline: ingestion and search routes

    Shallow embedding of the two route handlers
    - [src/app/api/migrate-to/route.js] (bulk ingestion, module [Migrate]),
    - the search route (query pipeline, module [Search]),
    together with the text normaliser and [getEmbedding], which both
    files define with the same text.

    JavaScript values are the values [JSON.parse] produces plus
    [undefined]; objects are finite maps from property names to values.
    A string is its sequence of code units, taken below 256; numbers in
    documents are abstract, the numeric fields of a request body
    ([batchSize], [limit], [topK]) are integers, and [limit], which the
    route tests for truthiness, may also be any other falsy value of a
    JSON body.

    The external collaborators (the embedding model and the vector store)
    are oracles that answer from the history of calls made so far; every
    call is recorded in a trace.  A computation threads the mutable state
    and either returns or throws, keeping the state reached. *)

From Stdlib Require Import ZArith Ascii String.
From stdpp Require Import gmap strings list pretty.

(** ** JavaScript values *)

Module JS.

(** Numbers are kept abstract: the routes only test a document's numbers
    for truthiness and print them with [String(...)]. *)
Class Numbers (num : Type) := {
  (** [true] exactly for [+0], [-0] and [NaN] *)
  number_falsy : num → bool;
  (** [Number::toString] in radix 10 *)
  Number_toString : num → string;
  Number_toString_nonempty : ∀ n, Number_toString n ≠ ""
}.

#[local] Set Warnings "-register-all".

Inductive value {num : Type} : Type :=
| VUndefined
| VNull
| VBool (b : bool)
| VNum (n : num)
| VStr (s : string)
| VArr (elems : list value)
| VObj (props : gmap string value).
Global Arguments value : clear implicits.

(** What a [throw] carries.  [TextTooShort] is
    [new Error("Text too short after cleaning")]. *)
Inductive error : Type :=
| TypeError
| TextTooShort
| NotAnArray
| ModelLoadFailure
| EmbeddingFailure
| ClientFailure
| StoreFailure.

Inductive result (A : Type) : Type :=
| Ok (a : A)
| Throw (e : error).
Global Arguments Ok {A} a.
Global Arguments Throw {A} e.

Section Values.
Context {num : Type} `{Numbers num}.

(** [ToBoolean] *)
Definition truthy (v : value num) : bool :=
  match v with
  | VUndefined | VNull => false
  | VBool b => b
  | VNum n => negb (number_falsy n)
  | VStr s => negb (String.eqb s "")
  | VArr _ | VObj _ => true
  end.

(** [typeof v === "object"] *)
Definition typeof_object (v : value num) : bool :=
  match v with
  | VNull | VArr _ | VObj _ => true
  | _ => false
  end.

(** [a || b] *)
Definition or_else (a b : value num) : value num :=
  if truthy a then a else b.

(** [v.k] for the property names the routes read ([_id], [id], [$oid],
    [question], [cleanedQuestion], [subject], [topic], [course], [query],
    [topK]): none of them is defined on a built-in prototype, so a
    primitive or an array answers [undefined]; reading a property of
    [null] or [undefined] throws. *)
Definition get (v : value num) (k : string) : result (value num) :=
  match v with
  | VUndefined | VNull => Throw TypeError
  | VObj props => Ok (default VUndefined (props !! k))
  | _ => Ok VUndefined
  end.

(** [String(v)].  An array is joined with commas, [null] and [undefined]
    elements printing as the empty string.  An object parsed from JSON
    prints as ["[object Object]"] unless it has an own [toString] property,
    which is then not callable: [OrdinaryToPrimitive] finds no usable
    method and throws. *)
Fixpoint ToString (v : value num) : result string :=
  match v with
  | VUndefined => Ok "undefined"
  | VNull => Ok "null"
  | VBool b => Ok (if b then "true" else "false")
  | VNum n => Ok (Number_toString n)
  | VStr s => Ok s
  | VArr elems =>
      (fix join (l : list (value num)) : result string :=
         match l with
         | [] => Ok ""
         | x :: rest =>
             match (match x with
                    | VUndefined | VNull => Ok ""
                    | _ => ToString x
                    end) with
             | Throw e => Throw e
             | Ok s =>
                 match rest with
                 | [] => Ok s
                 | _ :: _ =>
                     match join rest with
                     | Throw e => Throw e
                     | Ok r => Ok (s +:+ "," +:+ r)
                     end
                 end
             end
         end) elems
  | VObj props =>
      match props !! "toString" with
      | Some _ => Throw TypeError
      | None => Ok "[object Object]"
      end
  end.

(** [JSON.stringify(v)] answers a string for every value of this model
    except [undefined], for which it answers [undefined]; the routes only
    take a [substring] of the answer for a log line, so the model keeps
    whether that method call is possible. *)
Definition JSON_stringify_substring (v : value num) : result unit :=
  match v with
  | VUndefined => Throw TypeError
  | _ => Ok tt
  end.

End Values.

End JS.

(** ** Text normalisation *)

Module Text.

(** The characters [\s] and [trim] treat as white space, among the code
    units below 256: tab, line feed, vertical tab, form feed, carriage
    return, space and no-break space. *)
Definition is_space (c : ascii) : bool :=
  match N_of_ascii c with
  | 9 | 10 | 11 | 12 | 13 | 32 | 160 => true
  | _ => false
  end%N.

Fixpoint contains_gt (s : string) : bool :=
  match s with
  | "" => false
  | String c r => if Ascii.eqb c ">" then true else contains_gt r
  end.

(** [s.replace(/<[^>]*>/g, "")]: a ["<"] opens a match when a [">"]
    follows somewhere; the match then runs to the first [">"]. *)
Fixpoint remove_tags_from (inside : bool) (s : string) : string :=
  match s with
  | "" => ""
  | String c r =>
      if inside then
        if Ascii.eqb c ">" then remove_tags_from false r
        else remove_tags_from true r
      else if Ascii.eqb c "<" && contains_gt r then remove_tags_from true r
      else String c (remove_tags_from false r)
  end.

Definition remove_tags (s : string) : string := remove_tags_from false s.

(** [s.replace(/\s+/g, " ")] *)
Fixpoint collapse_from (in_run : bool) (s : string) : string :=
  match s with
  | "" => ""
  | String c r =>
      if is_space c then
        if in_run then collapse_from true r
        else String " " (collapse_from true r)
      else String c (collapse_from false r)
  end.

Definition collapse_spaces (s : string) : string := collapse_from false s.

Fixpoint all_space (s : string) : bool :=
  match s with
  | "" => true
  | String c r => is_space c && all_space r
  end.

Fixpoint trim_start (s : string) : string :=
  match s with
  | "" => ""
  | String c r => if is_space c then trim_start r else s
  end.

Fixpoint trim_end (s : string) : string :=
  match s with
  | "" => ""
  | String c r => if all_space s then "" else String c (trim_end r)
  end.

(** [s.trim()] *)
Definition trim (s : string) : string := trim_end (trim_start s).

(** The [cleanText] of [getEmbedding]. *)
Definition cleanText (text : string) : string :=
  trim (collapse_spaces (remove_tags text)).

End Text.

(** ** Effects: exceptions, mutable state and the external collaborators *)

Module Effects.
Import JS.

#[export] Instance result_ret : MRet result := @Ok.
#[export] Instance result_bind : MBind result := λ A B f r,
  match r with
  | Ok a => f a
  | Throw e => Throw e
  end.

(** A computation over mutable state [S] that returns or throws.  The
    state reached when an exception is thrown is kept: assignments made
    before a [throw] stay visible to the [catch] block and after it. *)
Definition M (S A : Type) : Type := S → result A * S.

#[export] Instance M_ret {S} : MRet (M S) := λ A a st, (Ok a, st).
#[export] Instance M_bind {S} : MBind (M S) := λ A B f m st,
  match m st with
  | (Ok a, st') => f a st'
  | (Throw e, st') => (Throw e, st')
  end.

Definition throw {S A} (e : error) : M S A := λ st, (Throw e, st).
Definition pure {S A} (r : result A) : M S A := λ st, (r, st).
Definition modify {S} (f : S → S) : M S unit := λ st, (Ok tt, f st).
Definition gets {S A} (f : S → A) : M S A := λ st, (Ok (f st), st).

(** [try { body } catch (error) { handler }] *)
Definition try_catch {S A} (body : M S A) (handler : error → M S A) : M S A :=
  λ st,
    match body st with
    | (Ok a, st') => (Ok a, st')
    | (Throw e, st') => handler e st'
    end.

(** [if (c) { m }] *)
Definition when {S} (c : bool) (m : M S unit) : M S unit :=
  if c then m else mret tt.

(** [for (const x of xs) { body }] *)
Fixpoint for_of {S A} (xs : list A) (body : A → M S unit) : M S unit :=
  match xs with
  | [] => mret tt
  | x :: rest => _ ← body x; for_of rest body
  end.

Section Collaborators.
Context {num : Type}.

(** The record upserted to the vector store. *)
Record metadata := {
  subject : value num;
  topic : value num;
  course : value num;
  cleanedQuestion : string
}.

Record vector := {
  id : value num;
  values : list (value num);
  meta : metadata
}.

(** Every call that leaves the process. *)
Inductive event :=
| EvLoadModel
| EvEmbed (text : string)
| EvUpsert (records : list vector)
| EvQuery (v : list (value num)) (topK : Z) (filter : value num)
| EvSleep (ms : nat).

(** The collaborators answer from the calls made before: [pipeline]
    resolves or rejects, the loaded model returns [output.data] or
    rejects, [new Pinecone(...)] returns or throws, [index.upsert]
    resolves or rejects, [index.query] resolves to the [matches] of its
    answer or rejects. *)
Record Env := {
  pipeline_loads : list event → bool;
  embedder_output : list event → string → option (list num);
  client_created : bool;
  index_upsert : list event → list vector → bool;
  index_query : list event → list (value num) → Z → value num →
                option (list (value num))
}.

(** The module-level [embedder] variable ([null] until the model is
    loaded) and the calls made so far. *)
Record world := {
  embedder_loaded : bool;
  trace : list event
}.

Definition emit (ev : event) (w : world) : world :=
  {| embedder_loaded := embedder_loaded w; trace := trace w ++ [ev] |}.

End Collaborators.
Global Arguments metadata : clear implicits.
Global Arguments vector : clear implicits.
Global Arguments event : clear implicits.
Global Arguments Env : clear implicits.
Global Arguments world : clear implicits.

End Effects.

(** ** [initEmbedder] and [getEmbedding] (the same text in both files) *)

Module Embedder.
Import JS Text Effects.

Section Embedder.
Context {num : Type} `{Numbers num} (env : Env num).

(** [embedder = await pipeline("feature-extraction", ...)] *)
Definition pipeline : M (world num) unit := λ w,
  if pipeline_loads env (trace w)
  then (Ok tt, {| embedder_loaded := true; trace := trace w ++ [EvLoadModel] |})
  else (Throw ModelLoadFailure, emit EvLoadModel w).

Definition initEmbedder : M (world num) unit := λ w,
  if embedder_loaded w then (Ok tt, w) else pipeline w.

(** [await embedder(cleanText, { pooling: "mean", normalize: true })]
    followed by [Array.from(output.data)] *)
Definition run_embedder (cleanText : string) : M (world num) (list (value num)) :=
  λ w,
    match embedder_output env (trace w) cleanText with
    | Some data => (Ok (VNum <$> data), emit (EvEmbed cleanText) w)
    | None => (Throw EmbeddingFailure, emit (EvEmbed cleanText) w)
    end.

(** [getEmbedding(text)].  On anything but a string, [text.replace] is not
    a function (or [text] has no properties) and the call throws. *)
Definition getEmbedding (text : value num) : M (world num) (list (value num)) :=
  match text with
  | VStr s =>
      let cleanText := cleanText s in
      if String.eqb cleanText "" || (String.length cleanText <? 3)%nat
      then throw TextTooShort
      else
        _ ← initEmbedder;
        run_embedder cleanText
  | _ => throw TypeError
  end.

End Embedder.
End Embedder.

(** ** Bulk ingestion: [POST] of [src/app/api/migrate-to/route.js] *)

Module Migrate.
Import JS Text Effects Embedder.

(** The [limit] field of the body: the integer the route documents it to
    be, or one of the other values of a JSON body that [if (limit)] takes
    for false: an absent field, [null], [false] and the empty string.
    [LimitNumber 0] stands for both zeros. *)
Inductive limit_value : Type :=
| LimitNumber (n : Z)
| LimitUndefined
| LimitNull
| LimitFalse
| LimitEmptyString.

(** The destructured request body.  [batchSize] is the integer the route
    documents it to be; [None] is an absent field. *)
Record request := {
  batchSize : option Z;
  limit : limit_value
}.

(** [stats] of the success response *)
Record stats := {
  totalDocuments : nat;
  totalProcessed : nat;
  errors : nat;
  skipped : nat;
  finalBatchSize : nat
}.

Inductive response :=
| Success (s : stats)                  (* { success: true, ..., stats } *)
| Failure (status : nat) (e : error).  (* { success: false, error }, status *)

(** [l.slice(0, end)] for an integer [end] *)
Definition slice_to {A} (l : list A) (end_ : Z) : list A :=
  let len := Z.of_nat (length l) in
  let final := if (end_ <? 0)%Z then Z.max (len + end_) 0 else Z.min end_ len in
  take (Z.to_nat final) l.

(** [ToBoolean(limit)] *)
Definition limit_truthy (limit : limit_value) : bool :=
  match limit with
  | LimitNumber n => negb (n =? 0)%Z
  | LimitUndefined | LimitNull | LimitFalse | LimitEmptyString => false
  end.

(** [ToIntegerOrInfinity(limit)], the conversion [slice] applies to its
    arguments: [undefined] is [NaN] as a number, hence 0 as an integer,
    and [null], [false] and the empty string are 0. *)
Definition limit_end (limit : limit_value) : Z :=
  match limit with
  | LimitNumber n => n
  | LimitUndefined | LimitNull | LimitFalse | LimitEmptyString => 0
  end.

(** [if (limit) { questions = questions.slice(0, limit) }] *)
Definition apply_limit {A} (limit : limit_value) (questions : list A) : list A :=
  if limit_truthy limit then slice_to questions (limit_end limit)
  else questions.

Section Migrate.
Context {num : Type} `{Numbers num} (env : Env num).

(** The variables of [POST] the loop assigns to. *)
Record locals := {
  batch : list (vector num);
  processedCount : nat;
  errorCount : nat;
  skippedCount : nat
}.

Record state := {
  the_world : world num;
  vars : locals
}.

Definition in_world {A} (m : M (world num) A) : M state A := λ st,
  let '(r, w) := m (the_world st) in
  (r, {| the_world := w; vars := vars st |}).

Definition assign (f : locals → locals) : M state unit :=
  modify (λ st, {| the_world := the_world st; vars := f (vars st) |}).

Definition read {A} (f : locals → A) : M state A := gets (λ st, f (vars st)).

Definition push (v : vector num) (l : locals) : locals :=
  {| batch := batch l ++ [v]; processedCount := processedCount l;
     errorCount := errorCount l; skippedCount := skippedCount l |}.
Definition clear_batch (l : locals) : locals :=
  {| batch := []; processedCount := processedCount l;
     errorCount := errorCount l; skippedCount := skippedCount l |}.
Definition incr_processed (l : locals) : locals :=
  {| batch := batch l; processedCount := S (processedCount l);
     errorCount := errorCount l; skippedCount := skippedCount l |}.
Definition incr_error (l : locals) : locals :=
  {| batch := batch l; processedCount := processedCount l;
     errorCount := S (errorCount l); skippedCount := skippedCount l |}.
Definition incr_skipped (l : locals) : locals :=
  {| batch := batch l; processedCount := processedCount l;
     errorCount := errorCount l; skippedCount := S (skippedCount l) |}.

(** [new Pinecone({ apiKey })] and [pc.index("cat-questions")] *)
Definition new_Pinecone : M state unit :=
  if client_created env then mret tt else throw ClientFailure.

(** [await index.upsert(batch)] *)
Definition upsert (records : list (vector num)) : M state unit :=
  in_world (λ w,
    (if index_upsert env (trace w) records then Ok tt else Throw StoreFailure,
     emit (EvUpsert records) w)).

(** [await new Promise((resolve) => setTimeout(resolve, ms))] *)
Definition sleep (ms : nat) : M state unit :=
  in_world (λ w, (Ok tt, emit (EvSleep ms) w)).

(** Lines 103-109: the id of a document, [None] when the [else] branch
    is taken.  The first branch keeps [doc._id.$oid] as it is, the other
    two convert with [String]. *)
Definition derive_docId (doc : value num) : result (option (value num)) :=
  _id ← get doc "_id";
  oid ← (if truthy _id && typeof_object _id then get _id "$oid"
         else Ok VUndefined);
  if truthy _id && typeof_object _id && truthy oid then
    mret (Some oid)
  else if truthy _id then
    s ← ToString _id; mret (Some (VStr s))
  else
    id ← get doc "id";
    if truthy id then s ← ToString id; mret (Some (VStr s))
    else mret None.

(** [doc.cleanedQuestion || doc.question] *)
Definition question_text (doc : value num) : result (value num) :=
  cleaned ← get doc "cleanedQuestion";
  if truthy cleaned then mret cleaned else get doc "question".

(** [doc.k || "unknown"] *)
Definition tag_or_unknown (doc : value num) (k : string) : result (value num) :=
  v ← get doc k;
  mret (or_else v (VStr "unknown")).

(** [Array.isArray(embedding[0]) ? embedding[0] : embedding] *)
Definition flatten_embedding (embedding : list (value num)) : list (value num) :=
  match embedding with
  | VArr inner :: _ => inner
  | _ => embedding
  end.

(** Lines 131-147: the record pushed to [batch].  When this runs
    [getEmbedding] has accepted the text, so it is a string; on anything
    else [.replace] would throw. *)
Definition build_vector (doc docId : value num) (embedding : list (value num))
  : result (vector num) :=
  let embeddingVector := flatten_embedding embedding in
  subject ← tag_or_unknown doc "subject";
  topic ← tag_or_unknown doc "topic";
  course ← tag_or_unknown doc "course";
  text ← question_text doc;
  cleanedQuestion ←
    match text with
    | VStr s => Ok (substring 0 500 (remove_tags s))
    | _ => Throw TypeError
    end;
  mret {| id := docId;
          values := embeddingVector;
          meta := {| subject := subject; topic := topic; course := course;
                     cleanedQuestion := cleanedQuestion |} |}.

(** Lines 152-167: the flush of a full batch and the two pacing delays. *)
Definition flush_and_pace (batchSize : Z) : M state unit :=
  b ← read batch;
  when (batchSize <=? Z.of_nat (length b))%Z
    (upsert b;;
     assign clear_batch;;
     sleep 1000);;
  n ← read processedCount;
  when (n mod 5 =? 0)%nat (sleep 200).

(** The [try] block of one iteration (lines 102-167); returning is
    [continue] or falling off the end of the block. *)
Definition try_block (batchSize : Z) (doc : value num) : M state unit :=
  docId ← pure (derive_docId doc);
  match docId with
  | None =>
      (* the arguments of console.warn are evaluated before the call *)
      _id ← pure (get doc "_id");
      id ← pure (get doc "id");
      pure (JSON_stringify_substring (or_else _id id));;
      assign incr_skipped
  | Some docId =>
      textForEmbedding ← pure (question_text doc);
      if negb (truthy textForEmbedding) then
        (* `Skipping document ${docId}: ...` converts docId to a string *)
        pure (ToString docId);;
        assign incr_skipped
      else
        embedding ← in_world (getEmbedding env textForEmbedding);
        vector ← pure (build_vector doc docId embedding);
        assign (push vector);;
        assign incr_processed;;
        flush_and_pace batchSize
  end.

(** [docId] when the [catch] block runs.  [let docId] (line 100) is
    declared outside the [try], whose first statement assigns it (lines
    103-109) and which never assigns it again: the [catch] block sees the
    id extracted, and [undefined] when the extraction threw or took its
    [else] branch. *)
Definition docId_in_catch (doc : value num) : value num :=
  match derive_docId doc with
  | Ok (Some docId) => docId
  | Ok None | Throw _ => VUndefined
  end.

(** The [catch] block (lines 168-177).  The template literal of its log
    line converts [docId || "[unknown]"] to a string, then comes
    [errorCount++].  The conversion throws for an id that cannot be
    printed, and that exception leaves the loop. *)
Definition catch_block (doc : value num) : M state unit :=
  pure (ToString (or_else (docId_in_catch doc) (VStr "[unknown]")));;
  assign incr_error.

(** One iteration: the [try] block and its [catch]. *)
Definition iteration (batchSize : Z) (doc : value num) : M state unit :=
  try_catch (try_block batchSize doc) (λ _, catch_block doc).

(** The outer [try] block from line 74 on, given the parsed JSON file. *)
Definition migrate (req : request) (questions : value num) : M state stats :=
  questions ←
    match questions with
    | VArr docs => mret docs
    | _ => throw NotAnArray
    end;
  let questions := apply_limit (limit req) questions in
  new_Pinecone;;
  for_of questions (iteration (default 50%Z (batchSize req)));;
  b ← read batch;
  when (0 <? length b)%nat (upsert b);;
  l ← read (λ l, l);
  mret {| totalDocuments := length questions;
          totalProcessed := processedCount l;
          errors := errorCount l;
          skipped := skippedCount l;
          finalBatchSize := length (batch l) |}.

Definition initial_locals : locals :=
  {| batch := []; processedCount := 0; errorCount := 0; skippedCount := 0 |}.

(** [POST]: the response and the world it leaves behind. *)
Definition POST (req : request) (questions : value num) (w : world num)
  : response * world num :=
  match migrate req questions {| the_world := w; vars := initial_locals |} with
  | (Ok s, st) => (Success s, the_world st)
  | (Throw e, st) => (Failure 500 e, the_world st)
  end.

End Migrate.
Global Arguments locals : clear implicits.
Global Arguments state : clear implicits.

End Migrate.

(** ** Search: [POST] of the search route *)

Module Search.
Import JS Text Effects Embedder.

Section Search.
Context {num : Type} `{Numbers num} (env : Env num).

(** The destructured request body; an absent field is [undefined], and
    [topK] is an integer. *)
Record request := {
  query : value num;
  subject : value num;
  topic : value num;
  course : value num;
  topK : option Z
}.

Inductive response :=
| Matches (matches : list (value num)) (total : nat)
          (searchQuery : value num) (filters : value num)
| QueryRequired               (* { error: "Query is required" }, status 400 *)
| Failure (status : nat) (e : error).

(** Lines 52-55 *)
Definition build_filter (subject topic course : value num)
  : gmap string (value num) :=
  let filter := ∅ in
  let filter := if truthy subject then <["subject" := subject]> filter else filter in
  let filter := if truthy topic then <["topic" := topic]> filter else filter in
  let filter := if truthy course then <["course" := course]> filter else filter in
  filter.

(** [Object.keys(filter).length > 0 ? filter : undefined] *)
Definition filter_argument (filter : gmap string (value num)) : value num :=
  if (0 <? size filter)%nat then VObj filter else VUndefined.

Definition new_Pinecone : M (world num) unit :=
  if client_created env then mret tt else throw ClientFailure.

(** [await index.query({ vector, topK, filter, includeMetadata: true })],
    then [searchResults.matches] *)
Definition index_query_call (v : list (value num)) (k : Z) (filter : value num)
  : M (world num) (list (value num)) := λ w,
  (match index_query env (trace w) v k filter with
   | Some matches => Ok matches
   | None => Throw StoreFailure
   end,
   emit (EvQuery v k filter) w).

(** [!query || query.trim().length === 0] *)
Definition query_missing (query : value num) : result bool :=
  if negb (truthy query) then Ok true
  else
    match query with
    | VStr s => Ok (String.length (trim s) =? 0)%nat
    | _ => Throw TypeError
    end.

Definition search (req : request) : M (world num) response :=
  missing ← pure (query_missing (query req));
  if (missing : bool) then mret QueryRequired
  else
    queryEmbedding ← getEmbedding env (query req);
    new_Pinecone;;
    let filter := build_filter (subject req) (topic req) (course req) in
    matches ← index_query_call queryEmbedding (default 10%Z (topK req))
                (filter_argument filter);
    mret (Matches matches (length matches) (query req) (VObj filter)).

Definition POST (req : request) (w : world num) : response * world num :=
  match search req w with
  | (Ok r, w') => (r, w')
  | (Throw e, w') => (Failure 500 e, w')
  end.

End Search.
Global Arguments request : clear implicits.
Global Arguments response : clear implicits.

End Search.

(** * The vocabulary of the statements *)

Module Props.
Import JS Text Effects Embedder.

(** The values of [limit] that [if (limit)] takes for false: zero, an
    absent field, [null], [false] and the empty string. *)
Definition falsy_limit (lim : Migrate.limit_value) : Prop :=
  lim = Migrate.LimitNumber 0 ∨ lim = Migrate.LimitUndefined ∨
  lim = Migrate.LimitNull ∨ lim = Migrate.LimitFalse ∨
  lim = Migrate.LimitEmptyString.

(** The body of a loop has run to its end on each of [xs] in turn, taking
    the state from [st] to [st']. *)
Inductive ran_through {S A} (body : A → M S unit) : list A → S → S → Prop :=
| ran_through_nil st : ran_through body [] st st
| ran_through_cons x xs st st1 st' :
    body x st = (Ok tt, st1) →
    ran_through body xs st1 st' →
    ran_through body (x :: xs) st st'.

Section Props.
Context {num : Type} `{Numbers num} (env : Env num).

(** The calls [getEmbedding] can make: loading the model and running it. *)
Definition model_event (ev : event num) : bool :=
  match ev with
  | EvLoadModel | EvEmbed _ => true
  | _ => false
  end.

(** A query text that is absent ([undefined] or [null]), empty, or made
    of white space only. *)
Definition blank_query (q : value num) : Prop :=
  q = VUndefined ∨ q = VNull ∨ ∃ s, q = VStr s ∧ all_space s = true.

(** How many documents the three counters account for. *)
Definition counted (l : Migrate.locals num) : nat :=
  Migrate.processedCount l + Migrate.errorCount l + Migrate.skippedCount l.

(** [1] for an exception, [0] for a normal end. *)
Definition thrown {A} (r : result A) : nat :=
  match r with
  | Ok _ => 0
  | Throw _ => 1
  end.

(** The upserts among [evs] that the store rejects, [before] being the
    calls made before them. *)
Fixpoint rejected_upserts (before evs : list (event num)) : nat :=
  match evs with
  | [] => 0
  | ev :: rest =>
      match ev with
      | EvUpsert recs => if index_upsert env before recs then 0 else 1
      | _ => 0
      end + rejected_upserts (before ++ [ev]) rest
  end.

Definition is_array (v : value num) : bool :=
  match v with VArr _ => true | _ => false end.

Definition is_string (v : value num) : bool :=
  match v with VStr _ => true | _ => false end.

(** An array that [String] prints as the empty string: [[]], and also
    [[null]] or [[[]]]. *)
Definition prints_empty (v : value num) : bool :=
  is_array v &&
  match ToString v with
  | Ok s => String.eqb s ""
  | Throw _ => false
  end.

(** The two id shapes from which the extraction does not yield a
    non-empty string: a truthy nested [$oid] that is not a string, kept as
    it is; and an array that prints as the empty string in the id field
    that is converted, [_id] when it is truthy and [id] otherwise. *)
Definition odd_id_shape (doc : value num) : bool :=
  match get doc "_id", get doc "id" with
  | Ok _id, Ok id_ =>
      match get _id "$oid" with
      | Ok oid =>
          if truthy _id && truthy oid then negb (is_string oid)
          else if truthy _id then prints_empty _id
          else prints_empty id_
      | Throw _ => prints_empty id_
      end
  | _, _ => false
  end.

(** A record built from one of [docs]: its id is the id extracted from
    that document, and it is a non-empty string exactly when the document
    has neither of the two odd id shapes. *)
Definition well_identified (docs : list (value num)) (v : vector num) : Prop :=
  ∃ doc, doc ∈ docs ∧
    Migrate.derive_docId doc = Ok (Some (id v)) ∧
    ((∃ s, id v = VStr s ∧ s ≠ "") ↔ odd_id_shape doc = false).

(** The loop invariant for a property [P] of records: it holds of every
    record in the batch and of every record of an upsert made since the
    trace was [before]. *)
Definition batch_inv (P : vector num → Prop) (before : list (event num))
    (st : Migrate.state num) : Prop :=
  Forall P (Migrate.batch (Migrate.vars st)) ∧
  ∃ evs, trace (Migrate.the_world st) = before ++ evs ∧
    ∀ recs, EvUpsert recs ∈ evs → Forall P recs.

(** How the [try] block of an iteration can end: it throws before anything
    is pushed (only the model may have been called), it counts the document
    as skipped without calling anything, or it pushes a record, counts the
    document as processed and goes on to the flush and the delays. *)
Inductive try_outcome (batchSize : Z) (doc : value num) (st : Migrate.state num)
  : result unit → Migrate.state num → Prop :=
| threw_before_push e w1 evs :
    trace w1 = trace (Migrate.the_world st) ++ evs →
    Forall (λ ev, model_event ev = true) evs →
    try_outcome batchSize doc st
      (Throw e) {| Migrate.the_world := w1; Migrate.vars := Migrate.vars st |}
| counted_skipped :
    try_outcome batchSize doc st
      (Ok tt) {| Migrate.the_world := Migrate.the_world st;
                 Migrate.vars := Migrate.incr_skipped (Migrate.vars st) |}
| pushed_record docId text embedding v w1 evs r st' :
    Migrate.derive_docId doc = Ok (Some docId) →
    Migrate.question_text doc = Ok text →
    getEmbedding env text (Migrate.the_world st) = (Ok embedding, w1) →
    Migrate.build_vector doc docId embedding = Ok v →
    trace w1 = trace (Migrate.the_world st) ++ evs →
    Forall (λ ev, model_event ev = true) evs →
    Migrate.flush_and_pace env batchSize
      {| Migrate.the_world := w1;
         Migrate.vars := Migrate.incr_processed (Migrate.push v (Migrate.vars st)) |}
      = (r, st') →
    try_outcome batchSize doc st r st'.

End Props.
End Props.

(** * Concrete collaborators, documents and requests *)

Module Scenarios.
Import JS Text Effects Embedder.

(** Integer-valued numbers, printed in decimal. *)
Lemma pretty_N_go_length (x : N) (s : string) :
  (String.length s ≤ String.length (pretty_N_go x s))%nat.
Proof.
  revert s. induction (N.lt_wf_0 x) as [x _ IH]; intros s.
  destruct (decide (x = 0)%N) as [->|Hx].
  - by rewrite pretty_N_go_0.
  - rewrite pretty_N_go_step by lia.
    etrans; [|apply IH; apply N.div_lt; lia]. simpl. lia.
Qed.

Lemma pretty_Z_nonempty (z : Z) : pretty z ≠ "".
Proof.
  assert (Hpos : ∀ p : positive, pretty p ≠ "").
  { intros p Hp. unfold pretty, pretty_positive, pretty, pretty_N in Hp.
    case_decide; [done|].
    pose proof (pretty_N_go_step (N.pos p) "" ltac:(lia)) as Hs.
    pose proof (pretty_N_go_length (N.pos p `div` 10)
                  (String (pretty_N_char (N.pos p `mod` 10)) "")) as Hl.
    rewrite <- Hs, Hp in Hl. simpl in Hl. lia. }
  destruct z as [|p|p]; unfold pretty, pretty_Z; [done|apply Hpos|done].
Qed.

#[export] Instance Z_numbers : Numbers Z := {|
  number_falsy z := (z =? 0)%Z;
  Number_toString z := pretty z;
  Number_toString_nonempty := pretty_Z_nonempty
|}.

(** A model that embeds every text into the same two numbers. *)
Definition constant_model (tr : list (event Z)) (text : string) : option (list Z) :=
  Some [1; 0]%Z.

(** Collaborators that never fail. *)
Definition reliable : Env Z := {|
  pipeline_loads := λ _, true;
  embedder_output := constant_model;
  client_created := true;
  index_upsert := λ _ _, true;
  index_query := λ _ _ _ _, Some []
|}.

Definition is_upsert (ev : event Z) : bool :=
  match ev with EvUpsert _ => true | _ => false end.

(** A store that rejects the first upsert it receives and accepts the
    later ones. *)
Definition first_upsert_rejected : Env Z := {|
  pipeline_loads := λ _, true;
  embedder_output := constant_model;
  client_created := true;
  index_upsert := λ tr _, existsb is_upsert tr;
  index_query := λ _ _ _ _, Some []
|}.

(** A store that rejects every upsert. *)
Definition every_upsert_rejected : Env Z := {|
  pipeline_loads := λ _, true;
  embedder_output := constant_model;
  client_created := true;
  index_upsert := λ _ _, false;
  index_query := λ _ _ _ _, Some []
|}.

(** The process before any request: no model loaded, no call made. *)
Definition fresh : world Z := {| embedder_loaded := false; trace := [] |}.

(** The process once the model has embedded a first text. *)
Definition after_embedding (text : string) : world Z :=
  {| embedder_loaded := true; trace := [EvLoadModel; EvEmbed text] |}.

(** The state in which the loop starts. *)
Definition start : Migrate.state Z :=
  {| Migrate.the_world := fresh; Migrate.vars := Migrate.initial_locals |}.

(** [{ id: "1", question: "What is 2+2?" }] *)
Definition doc_1 : value Z :=
  VObj {[ "id" := VStr "1"; "question" := VStr "What is 2+2?" ]}.

(** [{ id: "2", question: "x" }] *)
Definition doc_short : value Z :=
  VObj {[ "id" := VStr "2"; "question" := VStr "x" ]}.

(** [{ id: "3", question: "What is 3+3?" }] *)
Definition doc_3 : value Z :=
  VObj {[ "id" := VStr "3"; "question" := VStr "What is 3+3?" ]}.

(** [{ question: "What is 2+2?" }] *)
Definition doc_without_id : value Z :=
  VObj {[ "question" := VStr "What is 2+2?" ]}.

(** [{ _id: [], question: "What is 2+2?" }] *)
Definition doc_array_id : value Z :=
  VObj {[ "_id" := VArr []; "question" := VStr "What is 2+2?" ]}.

(** [{ _id: { $oid: { toString: "x" } }, question: "x" }]: the nested
    [$oid] is an object that cannot be converted to a string, and the text
    is too short to embed. *)
Definition doc_unprintable_id : value Z :=
  VObj {[ "_id" := VObj {[ "$oid" := VObj {[ "toString" := VStr "x" ]} ]};
          "question" := VStr "x" ]}.

(** [{ _id: { $oid: "65f0" }, cleanedQuestion: "What is 2+2?" }] *)
Definition doc_oid : value Z :=
  VObj {[ "_id" := VObj {[ "$oid" := VStr "65f0" ]};
          "cleanedQuestion" := VStr "What is 2+2?" ]}.

(** The record built from a document with the given id and text and no
    tags, under [constant_model]. *)
Definition record_of (id_ : string) (text : string) : vector Z :=
  {| id := VStr id_;
     values := [VNum 1%Z; VNum 0%Z];
     meta := {| subject := VStr "unknown"; topic := VStr "unknown";
                course := VStr "unknown"; cleanedQuestion := text |} |}.

(** [{ query: "hello world" }] *)
Definition query_without_filters : Search.request Z := {|
  Search.query := VStr "hello world";
  Search.subject := VUndefined;
  Search.topic := VUndefined;
  Search.course := VUndefined;
  Search.topK := None
|}.

(** [{ query: "hello world", subject: "Math" }] *)
Definition query_math : Search.request Z := {|
  Search.query := VStr "hello world";
  Search.subject := VStr "Math";
  Search.topic := VUndefined;
  Search.course := VUndefined;
  Search.topK := None
|}.

(** [{ query: "   " }] *)
Definition query_blank : Search.request Z := {|
  Search.query := VStr "   ";
  Search.subject := VUndefined;
  Search.topic := VUndefined;
  Search.course := VUndefined;
  Search.topK := None
|}.

(** [{}], [{ batchSize: 1 }] and [{ limit: 0 }] *)
Definition defaults : Migrate.request :=
  {| Migrate.batchSize := None; Migrate.limit := Migrate.LimitUndefined |}.
Definition batches_of_one : Migrate.request :=
  {| Migrate.batchSize := Some 1%Z; Migrate.limit := Migrate.LimitUndefined |}.
Definition limit_zero : Migrate.request :=
  {| Migrate.batchSize := None; Migrate.limit := Migrate.LimitNumber 0 |}.

End Scenarios.

(** * Reading the source file: lines 42-72 of the ingestion route *)

Module Source.
Import JS Effects.

(** What can go wrong before the loop: [fs.readFileSync] throws on the
    given path, [JSON.parse] throws, or no conventional location gave any
    data. *)
Inductive load_error : Type :=
| ReadError
| SyntaxError
| NoJSONFileFound.

Section Source.
Context {num : Type} `{Numbers num}.

(** The file system and the parser: [process.cwd()], [path.join],
    [fs.readFileSync(path, "utf8")] ([None] when it throws) and
    [JSON.parse] ([None] when it throws). *)
Record Files := {
  cwd : string;
  path_join : list string → string;
  readFileSync : string → option string;
  JSON_parse : string → option (value num)
}.

(** [possiblePaths] *)
Definition possiblePaths (fs : Files) : list string :=
  [ path_join fs [cwd fs; "questions.json"];
    path_join fs [cwd fs; "data"; "questions.json"];
    path_join fs [cwd fs; "public"; "data"; "questions.json"] ].

(** Lines 56-65: the loop over the paths; a path that cannot be read is
    passed over, the first that can ends the loop.  [None] is [jsonData]
    left [undefined]. *)
Fixpoint first_readable (fs : Files) (paths : list string) : option string :=
  match paths with
  | [] => None
  | filePath :: rest =>
      match readFileSync fs filePath with
      | Some jsonData => Some jsonData
      | None => first_readable fs rest
      end
  end.

Definition parse (fs : Files) (jsonData : string) : load_error + value num :=
  match JSON_parse fs jsonData with
  | Some questions => inr questions
  | None => inl SyntaxError
  end.

(** [if (jsonFilePath)]: the path is a string or absent, and the empty
    string is falsy like an absent field. *)
Definition path_given (jsonFilePath : option string) : bool :=
  match jsonFilePath with
  | Some p => negb (String.eqb p "")
  | None => false
  end.

(** Lines 46-48: the file named by the request. *)
Definition read_given (fs : Files) (p : string) : load_error + value num :=
  match readFileSync fs (path_join fs [cwd fs; p]) with
  | Some jsonData => parse fs jsonData
  | None => inl ReadError
  end.

(** Lines 50-71: the conventional locations.  [!jsonData] holds when no
    path could be read and also when the file read is empty. *)
Definition read_conventional (fs : Files) : load_error + value num :=
  match first_readable fs (possiblePaths fs) with
  | Some jsonData =>
      if String.eqb jsonData "" then inl NoJSONFileFound
      else parse fs jsonData
  | None => inl NoJSONFileFound
  end.

(** Lines 45-72 *)
Definition load_questions (fs : Files) (jsonFilePath : option string)
  : load_error + value num :=
  if path_given jsonFilePath then read_given fs (default "" jsonFilePath)
  else read_conventional fs.

(** The whole route: the source is read, then the run of [Migrate.POST]
    on what was parsed; a failure to read is answered with the error
    response, status 500, like any other exception of the outer [try]. *)
Definition POST (env : Env num) (fs : Files) (jsonFilePath : option string)
    (req : Migrate.request) (w : world num)
  : (load_error + Migrate.response) * world num :=
  match load_questions fs jsonFilePath with
  | inl e => (inl e, w)
  | inr questions =>
      let '(resp, w') := Migrate.POST env req questions w in
      (inr resp, w')
  end.

End Source.
Global Arguments Files : clear implicits.

End Source.

(** * Further vocabulary *)

Module Shapes.
Import JS Text Effects Embedder.

(** A ["<"] with a [">"] somewhere after it: what the tag pattern matches. *)
Fixpoint has_tag (s : string) : bool :=
  match s with
  | "" => false
  | String c r => (Ascii.eqb c "<" && contains_gt r) || has_tag r
  end.

Definition starts_space (s : string) : bool :=
  match s with
  | "" => false
  | String c _ => is_space c
  end.

Fixpoint ends_space (s : string) : bool :=
  match s with
  | "" => false
  | String c "" => is_space c
  | String _ r => ends_space r
  end.

(** Every white-space character is a space and is not followed by another
    white-space character. *)
Fixpoint single_spaces (s : string) : bool :=
  match s with
  | "" => true
  | String c r =>
      (if is_space c then Ascii.eqb c " " && negb (starts_space r) else true)
      && single_spaces r
  end.

Section Events.
Context {num : Type} `{Numbers num} (env : Env num).

(** The kinds of call. *)
Definition is_load (ev : event num) : bool :=
  match ev with EvLoadModel => true | _ => false end.
Definition is_embed (ev : event num) : bool :=
  match ev with EvEmbed _ => true | _ => false end.
Definition is_upsert (ev : event num) : bool :=
  match ev with EvUpsert _ => true | _ => false end.
Definition is_query (ev : event num) : bool :=
  match ev with EvQuery _ _ _ => true | _ => false end.
Definition is_sleep (ms : nat) (ev : event num) : bool :=
  match ev with EvSleep n => (n =? ms)%nat | _ => false end.

(** The response to a search reports a failure of the store. *)
Definition store_failure (resp : Search.response num) : bool :=
  match resp with
  | Search.Failure _ StoreFailure => true
  | _ => false
  end.

(** How many of the calls [evs] are of a kind. *)
Definition count (kind : event num → bool) (evs : list (event num)) : nat :=
  length (filter (λ ev, kind ev = true) evs).


(** The records the store accepted among those the calls [evs] sent, in
    order; [before] is the calls made before them. *)
Fixpoint accepted (before evs : list (event num)) : list (vector num) :=
  match evs with
  | [] => []
  | ev :: rest =>
      match ev with
      | EvUpsert recs => if index_upsert env before recs then recs else []
      | _ => []
      end ++ accepted (before ++ [ev]) rest
  end.

(** A record the loop can build from a document: it carries the id
    extracted from the document and is built from it and some embedding. *)
Definition built_from (doc : value num) (v : vector num) : Prop :=
  ∃ docId emb,
    Migrate.derive_docId doc = Ok (Some docId) ∧
    Migrate.build_vector doc docId emb = Ok v.

(** The order of upserts and delays of 1000 ms in a sequence of calls.
    [pending] tells whether the call before was an upsert.  An upsert may
    not follow an upsert at once; after an upsert the next call, if any,
    is a delay of 1000 ms; and such a delay comes nowhere else.  The
    answer is [None] when the order is broken, and otherwise whether the
    last call is an upsert. *)
Fixpoint upsert_rhythm (pending : bool) (evs : list (event num)) : option bool :=
  match evs with
  | [] => Some pending
  | ev :: rest =>
      match ev with
      | EvUpsert _ => if pending then None else upsert_rhythm true rest
      | EvSleep ms =>
          if (ms =? 1000)%nat then
            if pending then upsert_rhythm false rest else None
          else if pending then None else upsert_rhythm false rest
      | _ => if pending then None else upsert_rhythm false rest
      end
  end.

(** The delay that ends an iteration which processed a record: 200 ms
    when the number of processed records is a multiple of 5. *)
Definition pace (processed : nat) : list (event num) :=
  if (processed mod 5 =? 0)%nat then [EvSleep 200] else [].

(** How an iteration that ends normally can end.  It fails before pushing
    anything and counts an error, the model having been called at most
    once; it counts the document as skipped, calling nothing; or it pushes
    a record, counts it as processed and runs the flush and the delays,
    counting an error as well when the flush throws. *)
Inductive step_outcome (batchSize : Z) (doc : value num)
    (st : Migrate.state num) : Migrate.state num → Prop :=
| step_failed w1 :
    (w1 = Migrate.the_world st ∨
     ∃ text r, getEmbedding env text (Migrate.the_world st) = (r, w1)) →
    step_outcome batchSize doc st
      {| Migrate.the_world := w1;
         Migrate.vars := Migrate.incr_error (Migrate.vars st) |}
| step_skipped :
    step_outcome batchSize doc st
      {| Migrate.the_world := Migrate.the_world st;
         Migrate.vars := Migrate.incr_skipped (Migrate.vars st) |}
| step_pushed docId text embedding v w1 r st1 :
    Migrate.derive_docId doc = Ok (Some docId) →
    Migrate.question_text doc = Ok text →
    truthy text = true →
    getEmbedding env text (Migrate.the_world st) = (Ok embedding, w1) →
    Migrate.build_vector doc docId embedding = Ok v →
    Migrate.flush_and_pace env batchSize
      {| Migrate.the_world := w1;
         Migrate.vars := Migrate.incr_processed (Migrate.push v (Migrate.vars st)) |}
      = (r, st1) →
    step_outcome batchSize doc st
      match r with
      | Ok _ => st1
      | Throw _ =>
          {| Migrate.the_world := Migrate.the_world st1;
             Migrate.vars := Migrate.incr_error (Migrate.vars st1) |}
      end.



(** The statistics reported from the variables at the end of a run. *)
Definition stats_of (total : nat) (l : Migrate.locals num) : Migrate.stats :=
  {| Migrate.totalDocuments := total;
     Migrate.totalProcessed := Migrate.processedCount l;
     Migrate.errors := Migrate.errorCount l;
     Migrate.skipped := Migrate.skippedCount l;
     Migrate.finalBatchSize := length (Migrate.batch l) |}.

(** How a run of the ingestion route can end: before the loop, with
    nothing called; inside the loop, when the [catch] block of an
    iteration throws; after the loop with an empty batch; or after the
    final flush of the non-empty batch, accepted or rejected by the
    store. *)
Inductive run_outcome (req : Migrate.request) (questions : value num)
    (w : world num) : Migrate.response → world num → Prop :=
| run_not_an_array :
    (∀ docs, questions ≠ VArr docs) →
    run_outcome req questions w (Migrate.Failure 500 NotAnArray) w
| run_no_client docs :
    questions = VArr docs →
    client_created env = false →
    run_outcome req questions w (Migrate.Failure 500 ClientFailure) w
| run_aborted docs e st1 :
    questions = VArr docs →
    client_created env = true →
    for_of (Migrate.apply_limit (Migrate.limit req) docs)
      (Migrate.iteration env (default 50%Z (Migrate.batchSize req)))
      {| Migrate.the_world := w; Migrate.vars := Migrate.initial_locals |}
      = (Throw e, st1) →
    run_outcome req questions w (Migrate.Failure 500 e) (Migrate.the_world st1)
| run_completed docs st1 :
    questions = VArr docs →
    client_created env = true →
    for_of (Migrate.apply_limit (Migrate.limit req) docs)
      (Migrate.iteration env (default 50%Z (Migrate.batchSize req)))
      {| Migrate.the_world := w; Migrate.vars := Migrate.initial_locals |}
      = (Ok tt, st1) →
    Migrate.batch (Migrate.vars st1) = [] →
    run_outcome req questions w
      (Migrate.Success
         (stats_of (length (Migrate.apply_limit (Migrate.limit req) docs))
            (Migrate.vars st1)))
      (Migrate.the_world st1)
| run_flushed docs st1 :
    questions = VArr docs →
    client_created env = true →
    for_of (Migrate.apply_limit (Migrate.limit req) docs)
      (Migrate.iteration env (default 50%Z (Migrate.batchSize req)))
      {| Migrate.the_world := w; Migrate.vars := Migrate.initial_locals |}
      = (Ok tt, st1) →
    Migrate.batch (Migrate.vars st1) ≠ [] →
    run_outcome req questions w
      (if index_upsert env (trace (Migrate.the_world st1))
            (Migrate.batch (Migrate.vars st1))
       then Migrate.Success
              (stats_of (length (Migrate.apply_limit (Migrate.limit req) docs))
                 (Migrate.vars st1))
       else Migrate.Failure 500 StoreFailure)
      (emit (EvUpsert (Migrate.batch (Migrate.vars st1))) (Migrate.the_world st1)).

End Events.

End Shapes.

(** * Further scenarios *)

Module Fixtures.
Import JS Text Effects Embedder Source Scenarios.

(** A store that rejects every query. *)
Definition every_query_rejected : Env Z := {|
  pipeline_loads := λ _, true;
  embedder_output := constant_model;
  client_created := true;
  index_upsert := λ _ _, true;
  index_query := λ _ _ _ _, None
|}.

(** [{ batchSize: 2 }] *)
Definition batches_of_two : Migrate.request :=
  {| Migrate.batchSize := Some 2%Z; Migrate.limit := Migrate.LimitUndefined |}.

(** The state of the loop after [doc_1] alone, under [reliable] and with a
    batch size above 1. *)
Definition after_doc_1 : Migrate.state Z :=
  {| Migrate.the_world := after_embedding "What is 2+2?";
     Migrate.vars :=
       {| Migrate.batch := [record_of "1" "What is 2+2?"];
          Migrate.processedCount := 1;
          Migrate.errorCount := 0;
          Migrate.skippedCount := 0 |} |}.


(** [{ query: "<br>" }] and [{ query: 5 }] *)
Definition query_tag : Search.request Z := {|
  Search.query := VStr "<br>";
  Search.subject := VUndefined;
  Search.topic := VUndefined;
  Search.course := VUndefined;
  Search.topK := None
|}.
Definition query_number : Search.request Z := {|
  Search.query := VNum 5%Z;
  Search.subject := VUndefined;
  Search.topic := VUndefined;
  Search.course := VUndefined;
  Search.topK := None
|}.

(** A parser that knows two texts: the empty array and the empty object. *)
Definition parse_small (s : string) : option (value Z) :=
  if String.eqb s "[]" then Some (VArr [])
  else if String.eqb s "{}" then Some (VObj ∅)
  else None.

(** A process in ["/app"] whose disk holds the given files, as pairs of
    a path and a content; path segments are joined with ["/"]. *)
Definition disk (files : list (string * string)) : Files Z := {|
  cwd := "/app";
  path_join := String.concat "/";
  readFileSync := λ p, (list_to_map files : gmap string string) !! p;
  JSON_parse := parse_small
|}.

End Fixtures.

(** * Properties *)

(** ** White space and [trim] *)

Section TextFacts.
Import Text.

Lemma trim_start_cases (s : string) :
  (all_space s = true ∧ trim_start s = "") ∨
  (all_space s = false ∧
   ∃ c r, trim_start s = String c r ∧ is_space c = false).
Proof.
  induction s as [|c r IH]; simpl; [by left|].
  destruct (is_space c) eqn:Hc; simpl.
  - exact IH.
  - right. split; [done|]. by exists c, r.
Qed.

Lemma trim_empty_iff (s : string) : trim s = "" ↔ all_space s = true.
Proof.
  unfold trim.
  destruct (trim_start_cases s) as [[Hall ->]|[Hall (c & r & -> & Hc)]].
  - done.
  - simpl. rewrite Hc. simpl. split; [done|congruence].
Qed.

End TextFacts.

(** ** The embedding operation *)

Section EmbedderFacts.
Import JS Text Effects Embedder Props.
Context {num : Type} `{Numbers num} (env : Env num).

Lemma initEmbedder_trace (w : world num) r w' :
  initEmbedder env w = (r, w') →
  ∃ evs, trace w' = trace w ++ evs ∧ Forall (λ ev, model_event ev = true) evs.
Proof.
  unfold initEmbedder, pipeline, emit. intros Hrun.
  destruct (embedder_loaded w).
  - simplify_eq. exists []. by rewrite app_nil_r.
  - destruct (pipeline_loads env (trace w)); simplify_eq; simpl;
      exists [EvLoadModel]; split; try done; by repeat constructor.
Qed.

Lemma getEmbedding_trace (text : value num) (w : world num) r w' :
  getEmbedding env text w = (r, w') →
  ∃ evs, trace w' = trace w ++ evs ∧ Forall (λ ev, model_event ev = true) evs.
Proof.
  assert (Hsame : ∀ e, @throw (world num) (list (value num)) e w = (r, w') →
    ∃ evs, trace w' = trace w ++ evs ∧ Forall (λ ev, model_event ev = true) evs).
  { unfold throw. intros e ?. simplify_eq. exists []. by rewrite app_nil_r. }
  destruct text; simpl; eauto.
  case_match; eauto.
  unfold mbind, M_bind. destruct (initEmbedder env w) as [[[]|e] w1] eqn:Hinit.
  - apply initEmbedder_trace in Hinit as (evs & Htr & Hevs).
    unfold run_embedder, emit. intros Hrun.
    exists (evs ++ [EvEmbed (cleanText s)]).
    rewrite Forall_app, app_assoc, <- Htr.
    case_match; simplify_eq; simpl; repeat split; try done; by repeat constructor.
  - intros ?. simplify_eq. by eapply initEmbedder_trace.
Qed.

(** C7: on a string, [getEmbedding] throws the text-too-short error if and
    only if the normalised text (tags removed, runs of white space
    collapsed to one space, trimmed) is empty or shorter than three
    characters, and it then makes no call at all; on any other text, once
    the model is available (already loaded, or the load succeeds), the
    model is run on the normalised text and on nothing else. *)
Theorem getEmbedding_too_short_iff (text : string) (w : world num) :
  (fst (getEmbedding env (VStr text) w) = Throw TextTooShort ↔
   cleanText text = "" ∨ String.length (cleanText text) < 3) ∧
  (cleanText text = "" ∨ String.length (cleanText text) < 3 →
   getEmbedding env (VStr text) w = (Throw TextTooShort, w)) ∧
  (¬ (cleanText text = "" ∨ String.length (cleanText text) < 3) →
   embedder_loaded w = true ∨ pipeline_loads env (trace w) = true →
   ∃ w1,
     initEmbedder env w = (Ok tt, w1) ∧
     getEmbedding env (VStr text) w = run_embedder env (cleanText text) w1 ∧
     trace (snd (getEmbedding env (VStr text) w))
       = trace w1 ++ [EvEmbed (cleanText text)] ∧
     fst (getEmbedding env (VStr text) w)
       = match embedder_output env (trace w1) (cleanText text) with
         | Some data => Ok (VNum <$> data)
         | None => Throw EmbeddingFailure
         end).
Proof.
  assert (Hguard :
    String.eqb (cleanText text) "" || (String.length (cleanText text) <? 3) = true
    ↔ cleanText text = "" ∨ String.length (cleanText text) < 3).
  { rewrite orb_true_iff, String.eqb_eq, Nat.ltb_lt. done. }
  simpl. destruct (String.eqb (cleanText text) "" ||
                   (String.length (cleanText text) <? 3)) eqn:Hshort.
  - pose proof (proj1 Hguard eq_refl). split_and!; [done|done|tauto].
  - assert (Hlong : ¬ (cleanText text = "" ∨ String.length (cleanText text) < 3)).
    { intros HP. by apply Hguard in HP. }
    split_and!.
    + split; [|tauto]. unfold mbind, M_bind.
      destruct (initEmbedder env w) as [[[]|e] w1] eqn:Hinit; simpl.
      * unfold run_embedder. case_match; simpl; congruence.
      * unfold initEmbedder, pipeline in Hinit.
        repeat case_match; simplify_eq; done.
    + tauto.
    + intros _ Havail. unfold mbind, M_bind.
      assert (∃ w1, initEmbedder env w = (Ok tt, w1)) as [w1 Hinit].
      { unfold initEmbedder, pipeline. destruct (embedder_loaded w); [by eexists|].
        destruct Havail as [?| ->]; [done|by eexists]. }
      exists w1. rewrite Hinit. split_and!; [done|done|..];
        unfold run_embedder; by case_match.
Qed.

End EmbedderFacts.

(** ** The query pipeline *)

Section SearchFacts.
Import JS Text Effects Embedder Search Props.
Context {num : Type} `{Numbers num} (env : Env num).

Lemma query_missing_blank (q : value num) :
  blank_query q → query_missing q = Ok true.
Proof.
  intros [->|[->|(s & -> & Hs)]]; [done|done|].
  unfold query_missing. simpl. destruct (String.eqb s ""); simpl; [done|].
  apply trim_empty_iff in Hs. by rewrite Hs.
Qed.

(** C5: a search request whose query text is absent, empty or made of
    white space only is answered with the "Query is required" response
    (status 400), and the world is left as it was: no model is loaded or
    run and the vector store is not called. *)
Theorem blank_query_rejected_before_any_call
    (req : request num) (w : world num) :
  blank_query (query req) →
  POST env req w = (QueryRequired, w).
Proof.
  intros Hblank. unfold POST, search, mbind, M_bind, pure.
  by rewrite (query_missing_blank _ Hblank).
Qed.

(** The terms of the filter: a key is bound exactly when its request
    field is truthy, and then to that field. *)
Lemma build_filter_lookup (s t c : value num) (k : string) (v : value num) :
  build_filter s t c !! k = Some v ↔
    (k = "subject" ∧ v = s ∧ truthy s = true) ∨
    (k = "topic" ∧ v = t ∧ truthy t = true) ∨
    (k = "course" ∧ v = c ∧ truthy c = true).
Proof.
  unfold build_filter.
  destruct (truthy s), (truthy t), (truthy c);
    rewrite ?lookup_insert_Some, ?lookup_empty; intuition congruence.
Qed.

Lemma build_filter_empty_iff (s t c : value num) :
  build_filter s t c = ∅ ↔ truthy s || truthy t || truthy c = false.
Proof.
  unfold build_filter.
  destruct (truthy s), (truthy t), (truthy c); simpl; split; try done;
    intros Hemp; exfalso; eapply insert_non_empty; exact Hemp.
Qed.

Lemma filter_argument_cases (filter : gmap string (value num)) :
  filter_argument filter = if decide (filter = ∅) then VUndefined else VObj filter.
Proof.
  unfold filter_argument. case_decide as Hemp.
  - by rewrite Hemp, map_size_empty.
  - apply map_size_non_empty_iff in Hemp.
    by destruct (size filter).
Qed.

(** What a run of the route adds to the trace: model events, then at most
    one store query, made with the filter argument built from the
    request. *)
Lemma search_trace (req : request num) (w : world num) r w' :
  search env req w = (r, w') →
  ∃ evs, trace w' = trace w ++ evs ∧
    ∀ v k f, EvQuery v k f ∈ evs →
      f = filter_argument (build_filter (subject req) (topic req) (course req)).
Proof.
  unfold search, mbind, M_bind, pure, mret, M_ret. intros Hrun.
  assert (Hnil : w' = w →
    ∃ evs, trace w' = trace w ++ evs ∧
      ∀ v k f, EvQuery v k f ∈ evs →
        f = filter_argument (build_filter (subject req) (topic req) (course req))).
  { intros ->. exists []. rewrite app_nil_r. split; [done|].
    intros ??? Hin. by apply elem_of_nil in Hin. }
  destruct (query_missing (query req)) as [[]|e]; simplify_eq; eauto.
  destruct (getEmbedding env (query req) w) as [[emb|e] w1] eqn:Hemb;
    apply getEmbedding_trace in Hemb as (evs & Htr & Hevs).
  - unfold new_Pinecone in Hrun. destruct (client_created env); simpl in Hrun.
    + unfold index_query_call, emit in Hrun.
      exists (evs ++ [EvQuery emb (default 10%Z (topK req))
                (filter_argument (build_filter (subject req) (topic req) (course req)))]).
      split.
      { destruct (index_query env (trace w1) emb (default 10%Z (topK req))
                    (filter_argument
                       (build_filter (subject req) (topic req) (course req))));
          simplify_eq; simpl; by rewrite Htr, app_assoc. }
      intros v k f [Hin|Hin]%elem_of_app.
      * rewrite Forall_forall in Hevs. by apply Hevs in Hin.
      * apply list_elem_of_singleton in Hin. by simplify_eq.
    + unfold throw in Hrun. simplify_eq. exists evs. split; [done|].
      intros v k f Hin. rewrite Forall_forall in Hevs. by apply Hevs in Hin.
  - simplify_eq. exists evs. split; [done|].
    intros v k f Hin. rewrite Forall_forall in Hevs. by apply Hevs in Hin.
Qed.

(** C6: the filter handed to the vector store binds exactly those of
    [subject], [topic] and [course] whose request field is truthy (for a
    text field: present and not the empty string), each to the value of
    the field; when none is, the store receives [undefined] and not an
    empty object.  Every store query a run makes carries that filter. *)
Theorem store_filter_terms (req : request num) (w : world num) :
  let filter := build_filter (subject req) (topic req) (course req) in
  (∀ k v, filter !! k = Some v ↔
     (k = "subject" ∧ v = subject req ∧ truthy (subject req) = true) ∨
     (k = "topic" ∧ v = topic req ∧ truthy (topic req) = true) ∨
     (k = "course" ∧ v = course req ∧ truthy (course req) = true)) ∧
  (∀ s : string, truthy (VStr s : value num) = true ↔ s ≠ "") ∧
  truthy (VUndefined : value num) = false ∧
  filter_argument filter =
    (if truthy (subject req) || truthy (topic req) || truthy (course req)
     then VObj filter else VUndefined) ∧
  ∃ evs, trace (snd (POST env req w)) = trace w ++ evs ∧
    ∀ v k f, EvQuery v k f ∈ evs → f = filter_argument filter.
Proof.
  intros filter. split_and!.
  - intros k v. apply build_filter_lookup.
  - intros s. simpl. rewrite negb_true_iff, String.eqb_neq. done.
  - done.
  - rewrite filter_argument_cases. subst filter.
    pose proof (build_filter_empty_iff (subject req) (topic req) (course req)) as Hemp.
    case_decide as Hdec.
    + apply Hemp in Hdec. by rewrite Hdec.
    + destruct (truthy (subject req) || truthy (topic req) || truthy (course req));
        [done|]. destruct Hdec. by apply Hemp.
  - unfold POST.
    destruct (search env req w) as [[r|e] w'] eqn:Hrun;
      by apply search_trace in Hrun.
Qed.

(** C8 as amended: a success response carries the matches of the store's
    answer unchanged, the request's query text, the number of matches, and
    the filter object built from the request.  The store was queried last,
    with that object when it has a term and with [undefined] when it is
    empty. *)
Theorem success_response_contents
    (req : request num) (w w' : world num) matches total searchQuery filters :
  POST env req w = (Matches matches total searchQuery filters, w') →
  let filter := build_filter (subject req) (topic req) (course req) in
  ∃ before v k,
    trace w' = before ++ [EvQuery v k (filter_argument filter)] ∧
    index_query env before v k (filter_argument filter) = Some matches ∧
    total = length matches ∧
    searchQuery = query req ∧
    filters = VObj filter ∧
    filter_argument filter = (if decide (filter = ∅) then VUndefined else filters).
Proof.
  intros Hrun. cbv zeta.
  unfold POST, search, mbind, M_bind, pure, mret, M_ret in Hrun.
  destruct (query_missing (query req)) as [[]|e]; simpl in Hrun; simplify_eq.
  destruct (getEmbedding env (query req) w) as [[emb|e] w1]; simplify_eq.
  unfold new_Pinecone in Hrun. destruct (client_created env); simpl in Hrun;
    [|unfold throw in Hrun; simplify_eq].
  unfold index_query_call, emit in Hrun.
  destruct (index_query env (trace w1) emb (default 10%Z (topK req))
              (filter_argument (build_filter (subject req) (topic req) (course req))))
    as [ms|] eqn:Hq; simpl in Hrun; simplify_eq.
  exists (trace w1), emb, (default 10%Z (topK req)). simpl.
  split_and!; try done. apply filter_argument_cases.
Qed.

End SearchFacts.

(** ** Bulk ingestion *)

Section MigrateFacts.
Import JS Text Effects Embedder Migrate Props.
Context {num : Type} `{Numbers num} (env : Env num).

#[local] Abbreviation state := (Migrate.state num).
#[local] Abbreviation trace_of st := (trace (the_world st)).

(** Case analysis on membership in a list written out. *)
Ltac list_cases Hin :=
  repeat match type of Hin with
    | _ ∈ [] => by apply elem_of_nil in Hin
    | _ ∈ _ :: _ => apply elem_of_cons in Hin as [Hin|Hin]
    end.

(** *** One iteration *)

Lemma rejected_upserts_app (before evs1 evs2 : list (event num)) :
  rejected_upserts env before (evs1 ++ evs2)
  = rejected_upserts env before evs1
    + rejected_upserts env (before ++ evs1) evs2.
Proof.
  revert before. induction evs1 as [|ev evs1 IH]; intros before; simpl.
  - by rewrite app_nil_r.
  - rewrite IH, <- app_assoc. simpl. lia.
Qed.

Lemma rejected_upserts_model_events (before evs : list (event num)) :
  Forall (λ ev, model_event ev = true) evs →
  rejected_upserts env before evs = 0.
Proof.
  intros Hevs. revert before.
  induction Hevs as [|ev evs Hev _ IH]; intros before; simpl; [done|].
  rewrite IH. by destruct ev.
Qed.

Lemma rejected_upserts_reliable (before evs : list (event num)) :
  (∀ tr recs, index_upsert env tr recs = true) →
  rejected_upserts env before evs = 0.
Proof.
  intros Hreliable. revert before.
  induction evs as [|ev evs IH]; intros before; simpl; [done|].
  rewrite IH. destruct ev; try done. by rewrite Hreliable.
Qed.

(** The flush and the pacing delays leave the counters alone; the batch is
    kept or emptied; the only store call is an upsert of the whole batch,
    and a throw comes from that call, rejected by the store. *)
Lemma flush_and_pace_spec (batchSize : Z) (st : state) r st' :
  flush_and_pace env batchSize st = (r, st') →
  ∃ evs,
    trace_of st' = trace_of st ++ evs ∧
    (∀ recs, EvUpsert recs ∈ evs → recs = batch (vars st)) ∧
    rejected_upserts env (trace_of st) evs = thrown r ∧
    ((r = Ok tt ∧ (vars st' = vars st ∨ vars st' = clear_batch (vars st))) ∨
     (r = Throw StoreFailure ∧ vars st' = vars st ∧
      index_upsert env (trace_of st) (batch (vars st)) = false)).
Proof.
  unfold flush_and_pace, when, upsert, sleep, read, gets, assign, modify,
    in_world, emit, mbind, M_bind, mret, M_ret.
  intros Hrun. simpl in Hrun.
  destruct (batchSize <=? Z.of_nat (length (batch (vars st))))%Z;
    [destruct (index_upsert env (trace_of st) (batch (vars st))) eqn:Hup|];
    simpl in Hrun;
    repeat case_match; simplify_eq; simpl;
    eexists; (split; [rewrite <- ?app_assoc; simpl; try reflexivity;
                      by rewrite app_nil_r|]);
    (split; [intros recs Hin; list_cases Hin; by simplify_eq|]);
    (split; [simpl; by rewrite ?Hup|by eauto 6]).
Qed.

Lemma try_block_outcome (batchSize : Z) (doc : value num) (st : state) r st' :
  try_block env batchSize doc st = (r, st') →
  try_outcome env batchSize doc st r st'.
Proof.
  assert (Hearly : ∀ e, try_outcome env batchSize doc st (Throw e) st).
  { intros e. destruct st as [w l].
    apply (threw_before_push env batchSize doc {| the_world := w; vars := l |} e w []);
      [by rewrite app_nil_r|constructor]. }
  unfold try_block, pure, assign, modify, in_world, mbind, M_bind, mret, M_ret.
  intros Hrun.
  destruct (derive_docId doc) as [[docId|]|e] eqn:Hid; simplify_eq; [| |done].
  - destruct (question_text doc) as [text|e] eqn:Htext; simplify_eq; [|done].
    destruct (truthy text); simpl in Hrun.
    + destruct (getEmbedding env text (the_world st)) as [[emb|e] w1] eqn:Hemb;
        pose proof Hemb as Htrace;
        apply getEmbedding_trace in Htrace as (evs & Htr & Hevs); simpl in *;
        [|simplify_eq; by eapply threw_before_push].
      destruct (build_vector doc docId emb) as [v|e] eqn:Hv; simpl in Hrun;
        [|simplify_eq; by eapply threw_before_push].
      by eapply pushed_record.
    + destruct (ToString docId); simplify_eq; [constructor|done].
  - destruct (get doc "_id") as [_id|e]; simplify_eq; [|done].
    destruct (get doc "id") as [id_|e]; simplify_eq; [|done].
    destruct (JSON_stringify_substring (or_else _id id_)); simplify_eq;
      [constructor|done].
Qed.

(** The [catch] block counts an error and ends normally, unless the id
    cannot be printed: it then throws, leaving the state as it found it. *)
Lemma catch_block_cases (doc : value num) (st : state) r st' :
  catch_block doc st = (r, st') →
  (r = Ok tt ∧
   st' = {| the_world := the_world st; vars := incr_error (vars st) |} ∧
   ∃ printed,
     ToString (or_else (docId_in_catch doc) (VStr "[unknown]")) = Ok printed) ∨
  (∃ e, r = Throw e ∧ st' = st ∧
     ToString (or_else (docId_in_catch doc) (VStr "[unknown]")) = Throw e).
Proof.
  unfold catch_block, pure, assign, modify, mbind, M_bind.
  destruct (ToString (or_else (docId_in_catch doc) (VStr "[unknown]")))
    as [printed|e]; intros ?; simplify_eq; [left|right]; eauto.
Qed.

(** An iteration throws only from its [catch] block, on an id that cannot
    be printed; with an id that can, it always ends normally. *)
Lemma iteration_throws (batchSize : Z) (doc : value num) (st st' : state) e :
  iteration env batchSize doc st = (Throw e, st') →
  ToString (or_else (docId_in_catch doc) (VStr "[unknown]")) = Throw e.
Proof.
  unfold iteration, try_catch.
  destruct (try_block env batchSize doc st) as [[[]|e1] st1]; [done|].
  intros [(? & _)|(e' & ? & _ & Hprint)]%catch_block_cases; [done|].
  by simplify_eq.
Qed.

Lemma iteration_returns (batchSize : Z) (doc : value num) (st : state) printed :
  ToString (or_else (docId_in_catch doc) (VStr "[unknown]")) = Ok printed →
  ∃ st', iteration env batchSize doc st = (Ok tt, st').
Proof.
  intros Hprint.
  destruct (iteration env batchSize doc st) as [[[]|e] st'] eqn:Hit;
    [by eexists|].
  apply iteration_throws in Hit. congruence.
Qed.

(** The only id that cannot be printed is a nested [$oid] kept as it is:
    the two other branches of the extraction yield strings. *)
Lemma iteration_throws_only_on_unprintable_oid
    (batchSize : Z) (doc : value num) (st st' : state) e :
  iteration env batchSize doc st = (Throw e, st') →
  ∃ _id oid,
    get doc "_id" = Ok _id ∧ get _id "$oid" = Ok oid ∧
    truthy oid = true ∧
    derive_docId doc = Ok (Some oid) ∧
    ToString oid = Throw e.
Proof.
  intros Hprint%iteration_throws. revert Hprint.
  unfold docId_in_catch, derive_docId, or_else, mbind, result_bind, mret,
    result_ret.
  destruct (get doc "_id") as [_id|] eqn:H_id; [|done].
  destruct (truthy _id && typeof_object _id) eqn:Hobj; simpl.
  - apply andb_true_iff in Hobj as [-> _].
    destruct (get _id "$oid") as [oid|] eqn:Hoid; [|done].
    destruct (truthy oid) eqn:Ho; simpl.
    + rewrite Ho. intros Hprint. by exists _id, oid.
    + destruct (ToString _id) as [s|]; simpl; [|done].
      by destruct (String.eqb s "").
  - destruct (truthy _id).
    { destruct (ToString _id) as [s|]; simpl; [|done].
      by destruct (String.eqb s ""). }
    destruct (get doc "id") as [id_|]; [|done].
    destruct (truthy id_); [|done].
    destruct (ToString id_) as [s|]; simpl; [|done].
    by destruct (String.eqb s "").
Qed.

Lemma loop_cons (batchSize : Z) doc (docs : list (value num)) (st st1 : state) :
  iteration env batchSize doc st = (Ok tt, st1) →
  for_of (doc :: docs) (iteration env batchSize) st
  = for_of docs (iteration env batchSize) st1.
Proof. intros Hdoc. simpl. unfold mbind, M_bind. by rewrite Hdoc. Qed.

Lemma loop_aborts (batchSize : Z) doc (docs : list (value num)) (st st1 : state) e :
  iteration env batchSize doc st = (Throw e, st1) →
  for_of (doc :: docs) (iteration env batchSize) st = (Throw e, st1).
Proof. intros Hdoc. simpl. unfold mbind, M_bind. by rewrite Hdoc. Qed.

(** A loop that ends normally has run its body to the end on every
    element, in order; and conversely. *)
Lemma for_of_ran_through {S A} (body : A → M S unit) (xs : list A) (st st' : S) :
  for_of xs body st = (Ok tt, st') ↔ ran_through body xs st st'.
Proof.
  split.
  - revert st. induction xs as [|x xs IH]; intros st; simpl.
    + unfold mret, M_ret. intros [= <-]. constructor.
    + unfold mbind, M_bind. destruct (body x st) as [[[]|e] st1] eqn:Hx; [|done].
      intros Hrest. econstructor; [exact Hx|by apply IH].
  - induction 1 as [st|x xs st st1 st' Hx _ IH]; simpl; [done|].
    unfold mbind, M_bind. by rewrite Hx.
Qed.

(** *** Embedding failures *)

(** When the embedding call of a record fails, whatever the error (the
    text-too-short error included), the [catch] block runs on the state
    the call left.  If the id of the record can be printed, the iteration
    ends normally with [errorCount] one higher, the batch and the other
    counters as they were, and the loop goes on with the records that
    follow.  If it cannot, the iteration throws, no error is counted, and
    the loop ends there. *)
Lemma embedding_failure_when_id_prints
    (batchSize : Z) (doc : value num) (rest : list (value num)) (st : state)
    docId text e w1 printed :
  derive_docId doc = Ok (Some docId) →
  question_text doc = Ok text →
  truthy text = true →
  getEmbedding env text (the_world st) = (Throw e, w1) →
  ToString (or_else docId (VStr "[unknown]")) = Ok printed →
  ∃ st1,
    iteration env batchSize doc st = (Ok tt, st1) ∧
    the_world st1 = w1 ∧
    errorCount (vars st1) = S (errorCount (vars st)) ∧
    batch (vars st1) = batch (vars st) ∧
    processedCount (vars st1) = processedCount (vars st) ∧
    skippedCount (vars st1) = skippedCount (vars st) ∧
    for_of (doc :: rest) (iteration env batchSize) st
    = for_of rest (iteration env batchSize) st1.
Proof.
  intros Hid Htext Htruthy Hemb Hprint.
  assert (Hdoc : iteration env batchSize doc st
                 = (Ok tt, {| the_world := w1; vars := incr_error (vars st) |})).
  { unfold iteration, try_catch, try_block, catch_block, docId_in_catch,
      pure, in_world, mbind, M_bind.
    rewrite Hid, Htext, Htruthy. cbn [negb]. by rewrite Hemb, Hprint. }
  eexists. split_and!; [exact Hdoc|done..|by apply loop_cons].
Qed.

Lemma embedding_failure_when_id_does_not_print
    (batchSize : Z) (doc : value num) (rest : list (value num)) (st : state)
    docId text e w1 e' :
  derive_docId doc = Ok (Some docId) →
  question_text doc = Ok text →
  truthy text = true →
  getEmbedding env text (the_world st) = (Throw e, w1) →
  ToString (or_else docId (VStr "[unknown]")) = Throw e' →
  for_of (doc :: rest) (iteration env batchSize) st
  = (Throw e', {| the_world := w1; vars := vars st |}).
Proof.
  intros Hid Htext Htruthy Hemb Hprint. apply loop_aborts.
  unfold iteration, try_catch, try_block, catch_block, docId_in_catch,
    pure, in_world, mbind, M_bind.
  rewrite Hid, Htext, Htruthy. cbn [negb]. by rewrite Hemb, Hprint.
Qed.

(** *** Records without an id *)

(** A record for which the id extraction reaches its [else] branch is
    never embedded and never counted as processed.  It is counted as
    skipped when [doc.id] is present (and falsy); when [doc.id] is absent
    the argument of the warning throws and the record is counted as an
    error instead. *)
Lemma record_without_id (batchSize : Z) (doc : value num) (st : state) :
  derive_docId doc = Ok None →
  ∃ id_, get doc "id" = Ok id_ ∧ truthy id_ = false ∧
    iteration env batchSize doc st =
      (Ok tt, {| the_world := the_world st;
                 vars := match id_ with
                         | VUndefined => incr_error (vars st)
                         | _ => incr_skipped (vars st)
                         end |}).
Proof.
  intros Hnone.
  unfold iteration, try_catch, try_block, catch_block, docId_in_catch,
    pure, mbind, M_bind.
  rewrite Hnone.
  unfold derive_docId, mbind, result_bind, mret, result_ret in Hnone.
  destruct (get doc "_id") as [_id|] eqn:H_id; [|done].
  destruct (get doc "id") as [id_|] eqn:Hid.
  2:{ repeat case_match; simplify_eq. }
  exists id_.
  assert (truthy _id = false ∧ truthy id_ = false) as [H_idf Hidf].
  { repeat case_match; simplify_eq; done. }
  split_and!; [done|done|].
  unfold or_else. rewrite H_idf.
  destruct st as [w l].
  destruct id_; simpl in *; try done.
Qed.

(** *** The counters *)

(** An iteration that ends normally adds one to one of the three
    counters, and one more to [errorCount] when its flush is rejected:
    the record that filled the batch was already counted as processed. *)
Lemma iteration_accounting (batchSize : Z) (doc : value num) (st st' : state) :
  iteration env batchSize doc st = (Ok tt, st') →
  ∃ evs,
    trace_of st' = trace_of st ++ evs ∧
    counted (vars st')
    = S (counted (vars st)) + rejected_upserts env (trace_of st) evs.
Proof.
  unfold iteration, try_catch.
  destruct (try_block env batchSize doc st) as [r1 st1] eqn:Htry.
  apply try_block_outcome in Htry.
  destruct Htry as [e w1 evs Htr Hevs| |
    docId text emb v w1 evs r1 st1 _ _ _ _ Htr Hevs Hflush].
  - intros [(_ & -> & _)|(e' & ? & _)]%catch_block_cases; [|done].
    exists evs. simpl.
    rewrite (rejected_upserts_model_events _ _ Hevs).
    split; [done|]. unfold counted. simpl. lia.
  - intros ?. simplify_eq. exists []. simpl. rewrite app_nil_r.
    split; [done|]. unfold counted. simpl. lia.
  - apply flush_and_pace_spec in Hflush as (evs' & Htr' & _ & Hrej & Hcases).
    simpl in Htr', Hrej.
    assert (Hsum : rejected_upserts env (trace_of st) (evs ++ evs') = thrown r1).
    { rewrite rejected_upserts_app, (rejected_upserts_model_events _ _ Hevs).
      by rewrite <- Htr. }
    assert (Htrace : trace_of st1 = trace_of st ++ evs ++ evs').
    { by rewrite Htr', Htr, app_assoc. }
    destruct Hcases as [[-> [Hvars|Hvars]]|[-> [Hvars _]]].
    + intros ?. simplify_eq. exists (evs ++ evs'). rewrite Hsum, Hvars.
      split; [done|]. unfold counted. simpl. lia.
    + intros ?. simplify_eq. exists (evs ++ evs'). rewrite Hsum, Hvars.
      split; [done|]. unfold counted. simpl. lia.
    + intros [(_ & -> & _)|(e' & ? & _)]%catch_block_cases; [|done].
      exists (evs ++ evs'). simpl. rewrite Hsum, Hvars.
      split; [done|]. unfold counted. simpl. lia.
Qed.

Lemma loop_accounting (batchSize : Z) (docs : list (value num)) (st st' : state) :
  for_of docs (iteration env batchSize) st = (Ok tt, st') →
  ∃ evs,
    trace_of st' = trace_of st ++ evs ∧
    counted (vars st')
    = counted (vars st) + length docs + rejected_upserts env (trace_of st) evs.
Proof.
  intros Hran%for_of_ran_through.
  induction Hran as [st|doc docs st st1 st' Hdoc _ (evs2 & Htr2 & Hrest)].
  - exists []. simpl. rewrite app_nil_r. split; [done|lia].
  - apply iteration_accounting in Hdoc as (evs1 & Htr1 & Hone).
    exists (evs1 ++ evs2).
    rewrite rejected_upserts_app, <- Htr1. split; [|simpl; lia].
    by rewrite Htr2, Htr1, app_assoc.
Qed.

(** The statistics of a success response: the three counters add up to
    the number of documents plus the number of upserts the store rejected
    during the run. *)
Lemma stats_accounting
    (req : request) (questions : value num) (w w' : world num) (s : stats) :
  POST env req questions w = (Success s, w') →
  ∃ evs,
    trace w' = trace w ++ evs ∧
    totalProcessed s + errors s + skipped s
    = totalDocuments s + rejected_upserts env (trace w) evs.
Proof.
  unfold POST, migrate, new_Pinecone, when, read, gets,
    throw, mbind, M_bind, mret, M_ret.
  destruct questions as [| | | | |docs|]; try done.
  destruct (client_created env); [|done].
  destruct (for_of (apply_limit (limit req) docs)
              (iteration env (default 50%Z (batchSize req)))
              {| the_world := w; vars := initial_locals |})
    as [[[]|e] st1] eqn:Hloop; [|done].
  pose proof (loop_accounting _ _ _ _ Hloop) as (evs & Htr & Hcount).
  unfold counted in Hcount. simpl in Htr, Hcount.
  destruct (0 <? length (batch (vars st1))); simpl.
  - unfold upsert, in_world, emit.
    destruct (index_upsert env (trace_of st1) (batch (vars st1))) eqn:Hup;
      intros ?; simplify_eq; simpl.
    exists (evs ++ [EvUpsert (batch (vars st1))]).
    rewrite rejected_upserts_app, <- Htr. simpl. rewrite Hup. split; [|lia].
    by rewrite Htr, app_assoc.
  - intros ?. simplify_eq. simpl. exists evs. split; [done|lia].
Qed.

(** With a store that accepts every upsert, the statistics of a success
    response add up: every record of the truncated sequence is counted
    once. *)
Lemma stats_add_up_with_reliable_store
    (req : request) (questions : value num) (w w' : world num) (s : stats) :
  (∀ tr recs, index_upsert env tr recs = true) →
  POST env req questions w = (Success s, w') →
  totalProcessed s + errors s + skipped s = totalDocuments s.
Proof.
  intros Hreliable (evs & _ & Hsum)%stats_accounting.
  rewrite (rejected_upserts_reliable _ _ Hreliable) in Hsum. lia.
Qed.

(** *** The final flush *)

(** When the loop leaves a non-empty batch and the store rejects its
    upsert, the run ends with the error response; that upsert is the last
    call made. *)
Lemma final_flush_failure_aborts
    (req : request) (docs : list (value num)) (w : world num) (st1 : state) :
  client_created env = true →
  for_of (apply_limit (limit req) docs)
    (iteration env (default 50%Z (batchSize req)))
    {| the_world := w; vars := initial_locals |} = (Ok tt, st1) →
  batch (vars st1) ≠ [] →
  index_upsert env (trace_of st1) (batch (vars st1)) = false →
  POST env req (VArr docs) w
  = (Failure 500 StoreFailure,
     emit (EvUpsert (batch (vars st1))) (the_world st1)).
Proof.
  intros Hclient Hloop Hbatch Hfail.
  unfold POST, migrate, new_Pinecone, when, read, gets, upsert, in_world,
    mbind, M_bind, mret, M_ret.
  rewrite Hclient, Hloop.
  destruct (batch (vars st1)) as [|v b] eqn:Hb; [done|]. simpl.
  by rewrite Hb, Hfail.
Qed.

(** A flush inside the loop that the store rejects throws inside the [try]
    block of the iteration, so the [catch] takes it: when the id can be
    printed, the iteration ends normally with the batch kept, and nothing
    is called after the upsert. *)
Lemma mid_loop_flush_failure_is_caught
    (batchSize : Z) (doc : value num) (st : state) docId text emb v w1 printed :
  derive_docId doc = Ok (Some docId) →
  question_text doc = Ok text →
  truthy text = true →
  getEmbedding env text (the_world st) = (Ok emb, w1) →
  build_vector doc docId emb = Ok v →
  ToString (or_else docId (VStr "[unknown]")) = Ok printed →
  (batchSize ≤ Z.of_nat (length (batch (vars st) ++ [v])))%Z →
  index_upsert env (trace w1) (batch (vars st) ++ [v]) = false →
  iteration env batchSize doc st
  = (Ok tt,
     {| the_world := emit (EvUpsert (batch (vars st) ++ [v])) w1;
        vars := incr_error (incr_processed (push v (vars st))) |}).
Proof.
  intros Hid Htext Htruthy Hemb Hv Hprint Hfull Hfail.
  unfold iteration, try_catch, try_block, catch_block, docId_in_catch,
    flush_and_pace, when, upsert, read,
    gets, assign, modify, pure, in_world, mbind, M_bind, mret, M_ret.
  rewrite Hid, Htext, Htruthy. cbn [negb]. rewrite Hemb, Hv. simpl.
  apply Z.leb_le in Hfull. rewrite Hfull. simpl. by rewrite Hfail, Hprint.
Qed.

(** The two flushes side by side.  When the store rejects the final flush
    of the remainder, the run ends with the error response and that upsert,
    which is not repeated, is the last call made.  When the store rejects a
    flush inside the loop, the exception is caught by the handler of the
    iteration: for an id that can be printed, the iteration ends normally,
    the batch is kept as it was sent, and the loop goes on with the
    records that follow. *)
Lemma flush_failure_final_or_inside_loop
    (req : request) (docs : list (value num)) (w : world num) :
  (∀ st1,
     client_created env = true →
     for_of (apply_limit (limit req) docs)
       (iteration env (default 50%Z (batchSize req)))
       {| the_world := w; vars := initial_locals |} = (Ok tt, st1) →
     batch (vars st1) ≠ [] →
     index_upsert env (trace_of st1) (batch (vars st1)) = false →
     POST env req (VArr docs) w
     = (Failure 500 StoreFailure,
        emit (EvUpsert (batch (vars st1))) (the_world st1))) ∧
  (∀ size doc rest st docId text emb v w1 printed,
     derive_docId doc = Ok (Some docId) →
     question_text doc = Ok text →
     truthy text = true →
     getEmbedding env text (the_world st) = (Ok emb, w1) →
     build_vector doc docId emb = Ok v →
     ToString (or_else docId (VStr "[unknown]")) = Ok printed →
     (size ≤ Z.of_nat (length (batch (vars st) ++ [v])))%Z →
     index_upsert env (trace w1) (batch (vars st) ++ [v]) = false →
     ∃ st',
       iteration env size doc st = (Ok tt, st') ∧
       batch (vars st') = batch (vars st) ++ [v] ∧
       trace_of st' = trace w1 ++ [EvUpsert (batch (vars st) ++ [v])] ∧
       for_of (doc :: rest) (iteration env size) st
       = for_of rest (iteration env size) st').
Proof.
  split.
  - intros st1. apply final_flush_failure_aborts.
  - intros size doc rest st docId text emb v w1 printed
      Hid Htext Htruthy Hemb Hv Hprint Hfull Hfail.
    pose proof (mid_loop_flush_failure_is_caught size doc st docId text emb v w1
                  printed Hid Htext Htruthy Hemb Hv Hprint Hfull Hfail) as Hit.
    eexists. split_and!; [exact Hit|done|done|by apply loop_cons].
Qed.

(** *** The limit *)

Lemma falsy_limit_not_applied {A} (lim : limit_value) (l : list A) :
  falsy_limit lim → apply_limit lim l = l.
Proof. by intros [->|[->|[->|[->| ->]]]]. Qed.

(** C10: a falsy limit, be it zero, an absent field, [null], [false] or
    the empty string, truncates nothing.  The sequence the loop goes
    through is the whole source, and the run is the run of the request
    without a limit.  In a run that ends with the success response the
    loop body has run to its end on every record of the source, in order:
    [totalDocuments] is the length of the source, the counters reported
    are the counters after the last record, and together they count every
    record once, and once more for each upsert the store rejected. *)
Theorem falsy_limit_processes_every_record
    (req : request) (docs : list (value num)) (w : world num) :
  falsy_limit (limit req) →
  apply_limit (limit req) docs = docs ∧
  POST env req (VArr docs) w
  = POST env {| batchSize := batchSize req; limit := LimitUndefined |}
      (VArr docs) w ∧
  ∀ s w', POST env req (VArr docs) w = (Success s, w') →
    totalDocuments s = length docs ∧
    (∃ st',
       ran_through (iteration env (default 50%Z (batchSize req))) docs
         {| the_world := w; vars := initial_locals |} st' ∧
       totalProcessed s = processedCount (vars st') ∧
       errors s = errorCount (vars st') ∧
       skipped s = skippedCount (vars st')) ∧
    ∃ evs,
      trace w' = trace w ++ evs ∧
      totalProcessed s + errors s + skipped s
      = length docs + rejected_upserts env (trace w) evs.
Proof.
  intros Hfalsy.
  pose proof (falsy_limit_not_applied (limit req) docs Hfalsy) as Hall.
  split_and!; [done| |].
  - unfold POST, migrate, mbind, M_bind, mret, M_ret.
    cbn [Migrate.limit Migrate.batchSize]. by rewrite Hall.
  - intros s w' Hrun.
    pose proof (stats_accounting _ _ _ _ _ Hrun) as (evs & Htr & Hsum).
    revert Hrun.
    unfold POST, migrate, new_Pinecone, when, read, gets, throw,
      mbind, M_bind, mret, M_ret.
    destruct (client_created env); [|done]. rewrite Hall.
    destruct (for_of docs (iteration env (default 50%Z (batchSize req)))
                {| the_world := w; vars := initial_locals |})
      as [[[]|e] st1] eqn:Hloop; [|done].
    apply for_of_ran_through in Hloop.
    assert (Hstats : ∀ st2 : state, vars st2 = vars st1 →
      (Ok {| totalDocuments := length docs;
             totalProcessed := processedCount (vars st2);
             errors := errorCount (vars st2);
             skipped := skippedCount (vars st2);
             finalBatchSize := length (batch (vars st2)) |}, st2)
      = (Ok s, st2) →
      totalDocuments s = length docs ∧
      (∃ st',
         ran_through (iteration env (default 50%Z (batchSize req))) docs
           {| the_world := w; vars := initial_locals |} st' ∧
         totalProcessed s = processedCount (vars st') ∧
         errors s = errorCount (vars st') ∧
         skipped s = skippedCount (vars st'))).
    { intros st2 Hvars [= <-]. simpl. split; [done|].
      exists st1. by rewrite Hvars. }
    destruct (0 <? length (batch (vars st1))); simpl.
    + unfold upsert, in_world, emit.
      destruct (index_upsert env (trace_of st1) (batch (vars st1)));
        intros Hend; simplify_eq.
      destruct (Hstats _ eq_refl eq_refl) as [Htotal Hran].
      split_and!; [done|done|]. exists evs. by rewrite <- Htotal.
    + intros Hend. simplify_eq.
      destruct (Hstats _ eq_refl eq_refl) as [Htotal Hran].
      split_and!; [done|done|]. exists evs. by rewrite <- Htotal.
Qed.

(** *** The ids of the records built *)

Lemma ToString_nonempty (v : value num) (s : string) :
  truthy v = true → is_array v = false → ToString v = Ok s → s ≠ "".
Proof.
  destruct v as [| |[]|n|s'| |props]; simpl; try done.
  - by intros _ _ [= <-].
  - intros _ _ [= <-]. apply Number_toString_nonempty.
  - intros Hs _ [= <-]. apply negb_true_iff, String.eqb_neq in Hs. done.
  - intros _ _. destruct (props !! "toString"); [done|]. by intros [= <-].
Qed.

(** A truthy value prints as the empty string exactly when it is an array
    that does. *)
Lemma ToString_empty_iff (v : value num) (s : string) :
  truthy v = true → ToString v = Ok s → (s ≠ "" ↔ prints_empty v = false).
Proof.
  intros Htruthy Hs. unfold prints_empty. rewrite Hs.
  destruct (is_array v) eqn:Harr; simpl.
  - by rewrite String.eqb_neq.
  - split; [done|]. intros _. by eapply ToString_nonempty.
Qed.

(** The id extracted from a document is a non-empty string exactly when
    the document has neither of the two odd id shapes. *)
Lemma derive_docId_shape (doc docId : value num) :
  derive_docId doc = Ok (Some docId) →
  (∃ s, docId = VStr s ∧ s ≠ "") ↔ odd_id_shape doc = false.
Proof.
  assert (Hconv : ∀ v s, truthy v = true → ToString v = Ok s →
    (∃ s', (VStr s : value num) = VStr s' ∧ s' ≠ "") ↔ prints_empty v = false).
  { intros v s Hv Hs. rewrite <- (ToString_empty_iff v s Hv Hs).
    split; [by intros (s' & [= <-] & Hne)|by eauto]. }
  unfold odd_id_shape, derive_docId, mbind, result_bind, mret, result_ret.
  destruct (get doc "_id") as [_id|] eqn:Hget; [|done].
  assert (∃ id_, get doc "id" = Ok id_) as [id_ ->].
  { destruct doc; simpl in *; by eauto. }
  destruct (truthy _id) eqn:H_id; simpl.
  - assert (∃ oid, get _id "$oid" = Ok oid ∧
              (typeof_object _id = false → oid = VUndefined))
      as (oid & -> & Hoid).
    { destruct _id; simpl in *; try done; eexists; (split; [done|]); by intros. }
    destruct (typeof_object _id) eqn:Hobj; simpl.
    + destruct (truthy oid) eqn:Ho; simpl.
      * intros [= <-]. destruct oid; simpl in *;
          try (split; [by intros (? & ? & _)|done]).
        split; [done|]. intros _. exists s. split; [done|].
        by apply negb_true_iff, String.eqb_neq in Ho.
      * destruct (ToString _id) as [s|] eqn:Hs; [|done].
        intros [= <-]. by apply Hconv.
    + rewrite (Hoid eq_refl). simpl.
      destruct (ToString _id) as [s|] eqn:Hs; [|done].
      intros [= <-]. by apply Hconv.
  - destruct (truthy id_) eqn:Hid; [|done].
    destruct (ToString id_) as [s|] eqn:Hs; [|done].
    intros [= <-].
    destruct (get _id "$oid") as [oid|]; by apply Hconv.
Qed.

Lemma build_vector_id (doc docId : value num) emb (v : vector num) :
  build_vector doc docId emb = Ok v → id v = docId.
Proof.
  unfold build_vector, mbind, result_bind, mret, result_ret.
  repeat case_match; try done; by intros [= <-].
Qed.

Lemma model_events_no_upsert (evs : list (event num)) recs :
  Forall (λ ev, model_event ev = true) evs → EvUpsert recs ∉ evs.
Proof.
  intros Hevs Hin. rewrite Forall_forall in Hevs. by apply Hevs in Hin.
Qed.

(** The [catch] block calls nothing and leaves the batch alone. *)
Lemma catch_block_keeps (doc : value num) (st : state) r st' :
  catch_block doc st = (r, st') →
  the_world st' = the_world st ∧ batch (vars st') = batch (vars st).
Proof. by intros [(_ & -> & _)|(e & _ & -> & _)]%catch_block_cases. Qed.

Lemma iteration_preserves_inv (P : vector num → Prop) before
    (batchSize : Z) (doc : value num) (st : state) r st' :
  (∀ docId emb v, derive_docId doc = Ok (Some docId) →
                  build_vector doc docId emb = Ok v → P v) →
  batch_inv P before st →
  iteration env batchSize doc st = (r, st') →
  batch_inv P before st'.
Proof.
  intros HP [Hbatch (evs0 & Htr0 & Hups0)]. unfold iteration, try_catch.
  destruct (try_block env batchSize doc st) as [r1 st1] eqn:Htry.
  apply try_block_outcome in Htry.
  destruct Htry as [e w1 evs Htr Hevs| |
    docId text emb v w1 evs r1 st1 Hid _ _ Hv Htr Hevs Hflush].
  - intros [Hw Hb]%catch_block_keeps. unfold batch_inv.
    rewrite Hw, Hb. simpl. split; [done|].
    exists (evs0 ++ evs). rewrite Htr, Htr0, app_assoc. split; [done|].
    intros recs [Hin|Hin]%elem_of_app; [by apply Hups0|].
    by apply model_events_no_upsert in Hin.
  - intros ?. simplify_eq. split; [done|]. by exists evs0.
  - assert (Hpushed : Forall P (batch (vars st) ++ [v])).
    { apply Forall_app. split; [done|]. repeat constructor. by eapply HP. }
    apply flush_and_pace_spec in Hflush as (evs' & Htr' & Hups' & _ & Hcases).
    simpl in Htr', Hups'.
    assert (Htrace : ∃ evs1, trace_of st1 = before ++ evs1 ∧
              ∀ recs, EvUpsert recs ∈ evs1 → Forall P recs).
    { exists (evs0 ++ evs ++ evs').
      rewrite Htr', Htr, Htr0, <- !app_assoc. split; [done|].
      intros recs [Hin|[Hin|Hin]%elem_of_app]%elem_of_app.
      - by apply Hups0.
      - by apply model_events_no_upsert in Hin.
      - by rewrite (Hups' _ Hin). }
    destruct Hcases as [[-> [Hvars|Hvars]]|[-> [Hvars _]]].
    + intros ?. simplify_eq. split; [by rewrite Hvars|done].
    + intros ?. simplify_eq. split; [by rewrite Hvars|done].
    + intros [Hw Hb]%catch_block_keeps. unfold batch_inv.
      rewrite Hw, Hb, Hvars. done.
Qed.

Lemma loop_preserves_inv (P : vector num → Prop) before
    (batchSize : Z) (docs : list (value num)) (st : state) r st' :
  Forall (λ doc, ∀ docId emb v, derive_docId doc = Ok (Some docId) →
                   build_vector doc docId emb = Ok v → P v) docs →
  batch_inv P before st →
  for_of docs (iteration env batchSize) st = (r, st') →
  batch_inv P before st'.
Proof.
  intros Hdocs. revert st.
  induction Hdocs as [|doc docs Hdoc _ IH]; intros st Hinv; simpl.
  - unfold mret, M_ret. intros ?. by simplify_eq.
  - unfold mbind, M_bind.
    destruct (iteration env batchSize doc st) as [r1 st1] eqn:Hit.
    pose proof (iteration_preserves_inv _ _ _ _ _ _ _ Hdoc Hinv Hit) as Hinv1.
    destruct r1 as [[]|e]; [by apply IH|]. intros ?. by simplify_eq.
Qed.

Lemma apply_limit_subseteq {A} (lim : limit_value) (l : list A) (x : A) :
  x ∈ apply_limit lim l → x ∈ l.
Proof.
  unfold apply_limit, slice_to. destruct (limit_truthy lim); [|done].
  apply subseteq_take.
Qed.

(** C9 as amended: the id of every record the loop appends to the batch,
    and of every record in an upsert the run makes, is the id extracted
    from one of the source records by [derive_docId], a function of that
    record alone; and it is a non-empty string except for a record of one
    of two shapes: the id is a nested [$oid] that is not a string, kept as
    it is, or it is converted from an array that prints as the empty
    string. *)
Theorem record_ids_derived_and_nonempty_unless_odd
    (req : request) (docs : list (value num)) (w : world num) :
  (∀ batchSize r st',
     for_of docs (iteration env batchSize)
       {| the_world := w; vars := initial_locals |} = (r, st') →
     Forall (well_identified docs) (batch (vars st'))) ∧
  ∃ evs,
    trace (snd (POST env req (VArr docs) w)) = trace w ++ evs ∧
    ∀ recs v, EvUpsert recs ∈ evs → v ∈ recs → well_identified docs v.
Proof.
  assert (Hbuilt : ∀ docs', (∀ doc, doc ∈ docs' → doc ∈ docs) →
    Forall (λ doc, ∀ docId emb v, derive_docId doc = Ok (Some docId) →
              build_vector doc docId emb = Ok v → well_identified docs v) docs').
  { intros docs' Hsub. apply Forall_forall. intros doc Hin docId emb v Hid Hv.
    apply build_vector_id in Hv. exists doc. rewrite Hv.
    split_and!; [by apply Hsub|done|by apply derive_docId_shape]. }
  assert (Hinit : batch_inv (well_identified docs) (trace w)
                    {| the_world := w; vars := initial_locals |}).
  { split; [constructor|]. exists []. simpl. rewrite app_nil_r. split; [done|].
    intros recs Hin. by apply elem_of_nil in Hin. }
  split.
  - intros batchSize r st' Hloop.
    by destruct (loop_preserves_inv _ _ _ _ _ _ _ (Hbuilt docs (λ _ Hin, Hin))
                   Hinit Hloop).
  - unfold POST, migrate, new_Pinecone, when, read, gets, throw, upsert, in_world,
      emit, mbind, M_bind, mret, M_ret.
    destruct (client_created env).
    2:{ simpl. exists []. rewrite app_nil_r. split; [done|].
        intros recs v Hin. by apply elem_of_nil in Hin. }
    destruct (for_of (apply_limit (limit req) docs)
                (iteration env (default 50%Z (batchSize req)))
                {| the_world := w; vars := initial_locals |}) as [r st1] eqn:Hloop.
    pose proof (loop_preserves_inv _ _ _ _ _ _ _
                  (Hbuilt _ (apply_limit_subseteq (limit req) docs)) Hinit Hloop)
      as [Hbatch (evs & Htr & Hups)].
    destruct r as [[]|e].
    2:{ simpl. exists evs. split; [done|].
        intros recs v Hin Hv. eapply Forall_forall; [by apply Hups|done]. }
    destruct (0 <? length (batch (vars st1))); simpl.
    + exists (evs ++ [EvUpsert (batch (vars st1))]).
      split.
      { destruct (index_upsert env (trace_of st1) (batch (vars st1)));
          simpl; by rewrite Htr, app_assoc. }
      intros recs v [Hin|Hin]%elem_of_app Hv.
      * eapply Forall_forall; [by apply Hups|done].
      * apply list_elem_of_singleton in Hin. simplify_eq.
        eapply Forall_forall; done.
    + exists evs. split; [done|].
      intros recs v Hin Hv. eapply Forall_forall; [by apply Hups|done].
Qed.

End MigrateFacts.

(** ** The text normaliser *)

Section NormaliserFacts.
Import Text Shapes.

Lemma tag_chars_not_space (c : ascii) :
  Ascii.eqb c "<" || Ascii.eqb c ">" = true → is_space c = false.
Proof.
  intros [Hc|Hc]%orb_true_iff; apply Ascii.eqb_eq in Hc; by subst.
Qed.

Lemma remove_tags_from_no_gt (s : string) :
  contains_gt s = false → remove_tags_from false s = s.
Proof.
  induction s as [|c r IH]; simpl; [done|].
  destruct (Ascii.eqb c ">"); [done|]. intros Hr.
  rewrite Hr, andb_false_r. by rewrite IH.
Qed.

Lemma remove_tags_from_has_tag (inside : bool) (s : string) :
  has_tag (remove_tags_from inside s) = false.
Proof.
  revert inside. induction s as [|c r IH]; intros inside; simpl; [done|].
  destruct inside.
  - destruct (Ascii.eqb c ">"); apply IH.
  - destruct (Ascii.eqb c "<" && contains_gt r) eqn:Hopen; [apply IH|].
    simpl. rewrite IH, orb_false_r.
    destruct (Ascii.eqb c "<"); [|done]. simpl in *.
    by rewrite remove_tags_from_no_gt.
Qed.

Lemma remove_tags_id (s : string) :
  has_tag s = false → remove_tags s = s.
Proof.
  unfold remove_tags. induction s as [|c r IH]; simpl; [done|].
  intros [-> Hr]%orb_false_iff. by rewrite IH.
Qed.

(** X1: removing tags leaves no tag behind, that is no ["<"] with a [">"]
    after it, and changes nothing in a text that has none. *)
Theorem remove_tags_leaves_no_tag (s : string) :
  has_tag (remove_tags s) = false ∧
  (has_tag s = false → remove_tags s = s) ∧
  remove_tags (remove_tags s) = remove_tags s.
Proof.
  split_and!.
  - apply remove_tags_from_has_tag.
  - apply remove_tags_id.
  - apply remove_tags_id, remove_tags_from_has_tag.
Qed.

(** *** Collapsing and trimming *)

Lemma collapse_from_shape (in_run : bool) (s : string) :
  single_spaces (collapse_from in_run s) = true ∧
  (in_run = true → starts_space (collapse_from in_run s) = false).
Proof.
  revert in_run. induction s as [|c r IH]; intros in_run; simpl; [done|].
  destruct (is_space c) eqn:Hc.
  - destruct in_run.
    + apply IH.
    + split; [|done]. simpl.
      destruct (IH true) as [-> ->]; done.
  - split; [|by rewrite <- Hc]. simpl. rewrite Hc. by destruct (IH false) as [-> _].
Qed.

Lemma single_spaces_trim_start (s : string) :
  single_spaces s = true → single_spaces (trim_start s) = true.
Proof.
  induction s as [|c r IH]; simpl; [done|].
  intros [Hc Hr]%andb_true_iff.
  destruct (is_space c) eqn:Hsp; [by apply IH|]. simpl. by rewrite Hsp, Hr.
Qed.

Lemma starts_space_trim_start (s : string) : starts_space (trim_start s) = false.
Proof.
  induction s as [|c r IH]; simpl; [done|].
  destruct (is_space c) eqn:Hc; [done|]. simpl. by rewrite Hc.
Qed.

Lemma trim_end_empty_iff (s : string) : trim_end s = "" ↔ all_space s = true.
Proof.
  destruct s as [|c r]; simpl; [done|].
  destruct (is_space c && all_space r); done.
Qed.

Lemma starts_space_trim_end (s : string) :
  starts_space (trim_end s) = true → starts_space s = true.
Proof.
  destruct s as [|c r]; simpl; [done|].
  by destruct (is_space c && all_space r).
Qed.

Lemma ends_space_trim_end (s : string) : ends_space (trim_end s) = false.
Proof.
  induction s as [|c r IH]; [done|].
  cbn [trim_end]. destruct (all_space (String c r)) eqn:Hall; [done|].
  cbn [ends_space]. destruct (trim_end r) eqn:Hr; [|done].
  apply trim_end_empty_iff in Hr. simpl in Hall. rewrite Hr, andb_true_r in Hall.
  done.
Qed.

Lemma single_spaces_trim_end (s : string) :
  single_spaces s = true → single_spaces (trim_end s) = true.
Proof.
  induction s as [|c r IH]; [done|].
  cbn [trim_end]. destruct (all_space (String c r)); [done|].
  simpl. intros [Hc Hr]%andb_true_iff. rewrite (IH Hr), andb_true_r.
  destruct (is_space c); [|done].
  apply andb_true_iff in Hc as [-> Hnext]. simpl.
  destruct (starts_space (trim_end r)) eqn:Hs; [|done].
  apply starts_space_trim_end in Hs. by rewrite Hs in Hnext.
Qed.

Lemma trim_end_keeps_start (s : string) :
  starts_space s = false → starts_space (trim_end s) = false.
Proof.
  intros Hs. destruct (starts_space (trim_end s)) eqn:Ht; [|done].
  apply starts_space_trim_end in Ht. congruence.
Qed.

Lemma trim_collapse_shape (s : string) :
  starts_space (trim (collapse_spaces s)) = false ∧
  ends_space (trim (collapse_spaces s)) = false ∧
  single_spaces (trim (collapse_spaces s)) = true.
Proof.
  unfold trim, collapse_spaces. split_and!.
  - apply trim_end_keeps_start, starts_space_trim_start.
  - apply ends_space_trim_end.
  - apply single_spaces_trim_end, single_spaces_trim_start, collapse_from_shape.
Qed.


(** *** Cleaning a cleaned text *)

Lemma collapse_from_id (in_run : bool) (s : string) :
  single_spaces s = true →
  (in_run = true → starts_space s = false) →
  collapse_from in_run s = s.
Proof.
  revert in_run. induction s as [|c r IH]; intros in_run; simpl; [done|].
  intros [Hc Hr]%andb_true_iff Hstart.
  destruct (is_space c) eqn:Hsp.
  - destruct in_run; [by specialize (Hstart eq_refl)|].
    apply andb_true_iff in Hc as [Heq Hnext]. apply Ascii.eqb_eq in Heq. subst c.
    rewrite IH; [done|done|]. intros _. by apply negb_true_iff.
  - by rewrite IH.
Qed.

Lemma trim_start_id (s : string) : starts_space s = false → trim_start s = s.
Proof. destruct s as [|c r]; simpl; [done|]. by intros ->. Qed.

Lemma all_space_ends_space (c : ascii) (r : string) :
  all_space (String c r) = true → ends_space (String c r) = true.
Proof.
  revert c. induction r as [|c' r IH]; intros c; simpl.
  - by rewrite andb_true_r.
  - intros [_ Hr]%andb_true_iff. by apply IH.
Qed.

Lemma trim_end_id (s : string) : ends_space s = false → trim_end s = s.
Proof.
  induction s as [|c r IH]; [done|]. intros Hend.
  cbn [trim_end]. destruct (all_space (String c r)) eqn:Hall.
  - apply all_space_ends_space in Hall. congruence.
  - rewrite IH; [done|]. destruct r; [done|]. exact Hend.
Qed.

Lemma contains_gt_collapse_from (in_run : bool) (s : string) :
  contains_gt (collapse_from in_run s) = contains_gt s.
Proof.
  revert in_run. induction s as [|c r IH]; intros in_run; simpl; [done|].
  destruct (Ascii.eqb c ">") eqn:Hgt.
  - rewrite (tag_chars_not_space c) by (by rewrite Hgt, orb_true_r).
    simpl. by rewrite Hgt.
  - destruct (is_space c); [destruct in_run|]; simpl; rewrite ?Hgt; apply IH.
Qed.

Lemma has_tag_collapse_from (in_run : bool) (s : string) :
  has_tag (collapse_from in_run s) = has_tag s.
Proof.
  revert in_run. induction s as [|c r IH]; intros in_run; simpl; [done|].
  destruct (Ascii.eqb c "<") eqn:Hlt.
  - rewrite (tag_chars_not_space c) by (by rewrite Hlt).
    simpl. by rewrite Hlt, contains_gt_collapse_from, IH.
  - destruct (is_space c); [destruct in_run|]; simpl; rewrite ?Hlt; simpl; apply IH.
Qed.

Lemma has_tag_trim_start (s : string) :
  has_tag s = false → has_tag (trim_start s) = false.
Proof.
  induction s as [|c r IH]; simpl; [done|].
  intros [Hc Hr]%orb_false_iff.
  destruct (is_space c) eqn:Hsp; [by apply IH|]. simpl. by rewrite Hc, Hr.
Qed.

Lemma contains_gt_trim_end (s : string) :
  contains_gt s = false → contains_gt (trim_end s) = false.
Proof.
  induction s as [|c r IH]; [done|].
  cbn [trim_end]. destruct (all_space (String c r)); [done|]. simpl.
  destruct (Ascii.eqb c ">"); [done|]. apply IH.
Qed.

Lemma has_tag_trim_end (s : string) :
  has_tag s = false → has_tag (trim_end s) = false.
Proof.
  induction s as [|c r IH]; [done|].
  cbn [trim_end]. destruct (all_space (String c r)); [done|]. simpl.
  intros [Hc Hr]%orb_false_iff. rewrite (IH Hr), orb_false_r.
  destruct (Ascii.eqb c "<"); [|done]. simpl in *.
  by apply contains_gt_trim_end.
Qed.

Lemma has_tag_cleanText (text : string) : has_tag (cleanText text) = false.
Proof.
  unfold cleanText, trim, collapse_spaces.
  apply has_tag_trim_end, has_tag_trim_start.
  rewrite has_tag_collapse_from. apply remove_tags_from_has_tag.
Qed.

(** X3: cleaning is idempotent: a cleaned text is left as it is by a
    second cleaning. *)
Theorem cleanText_idempotent (text : string) :
  cleanText (cleanText text) = cleanText text.
Proof.
  destruct (trim_collapse_shape (remove_tags text)) as (Hstart & Hend & Hsingle).
  fold (cleanText text) in Hstart, Hend, Hsingle.
  unfold cleanText at 1.
  rewrite (remove_tags_id _ (has_tag_cleanText text)).
  unfold collapse_spaces. rewrite collapse_from_id by done.
  unfold trim. rewrite trim_start_id by done. by apply trim_end_id.
Qed.

(** *** Cleaning never lengthens *)

Lemma length_remove_tags_from (inside : bool) (s : string) :
  String.length (remove_tags_from inside s) ≤ String.length s.
Proof.
  revert inside. induction s as [|c r IH]; intros inside; simpl; [done|].
  destruct inside.
  - destruct (Ascii.eqb c ">"); etrans; [apply IH|lia|apply IH|lia].
  - destruct (Ascii.eqb c "<" && contains_gt r); simpl.
    + etrans; [apply IH|lia].
    + specialize (IH false). lia.
Qed.

Lemma length_collapse_from (in_run : bool) (s : string) :
  String.length (collapse_from in_run s) ≤ String.length s.
Proof.
  revert in_run. induction s as [|c r IH]; intros in_run; simpl; [done|].
  destruct (is_space c); [destruct in_run|]; simpl.
  - specialize (IH true). lia.
  - specialize (IH true). lia.
  - specialize (IH false). lia.
Qed.

Lemma length_trim_start (s : string) :
  String.length (trim_start s) ≤ String.length s.
Proof.
  induction s as [|c r IH]; simpl; [done|].
  destruct (is_space c); simpl; lia.
Qed.

Lemma length_trim_end (s : string) :
  String.length (trim_end s) ≤ String.length s.
Proof.
  induction s as [|c r IH]; [done|].
  cbn [trim_end]. destruct (all_space (String c r)); simpl; lia.
Qed.

Lemma length_cleanText (text : string) :
  String.length (cleanText text) ≤ String.length text.
Proof.
  unfold cleanText, trim, collapse_spaces, remove_tags.
  etrans; [apply length_trim_end|].
  etrans; [apply length_trim_start|].
  etrans; [apply length_collapse_from|].
  apply length_remove_tags_from.
Qed.

End NormaliserFacts.

(** ** Iterations and runs of the ingestion route, case by case *)

Section StepFacts.
Import JS Text Effects Embedder Migrate Props Shapes.
Context {num : Type} `{Numbers num} (env : Env num).

#[local] Abbreviation state := (Migrate.state num).
#[local] Abbreviation trace_of st := (trace (the_world st)).
#[local] Abbreviation loaded st := (embedder_loaded (the_world st)).

(** The flush and the delays, exactly: a full batch is upserted; when the
    store accepts it the batch is emptied and a delay of 1000 ms follows,
    then the delay of the fifth record if due; when the store rejects it
    the block is left at once.  A batch that is not full is kept. *)
Lemma flush_and_pace_exact (batchSize : Z) (st : state) r st1 :
  flush_and_pace env batchSize st = (r, st1) →
  let b := batch (vars st) in
  let n := processedCount (vars st) in
  loaded st1 = loaded st ∧
  (((batchSize ≤ Z.of_nat (length b))%Z ∧
    index_upsert env (trace_of st) b = true ∧
    r = Ok tt ∧ vars st1 = clear_batch (vars st) ∧
    trace_of st1 = trace_of st ++ EvUpsert b :: EvSleep 1000 :: pace n) ∨
   ((batchSize ≤ Z.of_nat (length b))%Z ∧
    index_upsert env (trace_of st) b = false ∧
    r = Throw StoreFailure ∧ vars st1 = vars st ∧
    trace_of st1 = trace_of st ++ [EvUpsert b]) ∨
   ((Z.of_nat (length b) < batchSize)%Z ∧
    r = Ok tt ∧ vars st1 = vars st ∧
    trace_of st1 = trace_of st ++ pace n)).
Proof.
  unfold flush_and_pace, when, upsert, sleep, read, gets, assign, modify,
    in_world, emit, pace, mbind, M_bind, mret, M_ret.
  intros Hrun. cbn -[Nat.modulo] in Hrun. cbv zeta.
  destruct (batchSize <=? Z.of_nat (length (batch (vars st))))%Z eqn:Hfull;
    [apply Z.leb_le in Hfull|apply Z.leb_gt in Hfull];
    [destruct (index_upsert env (trace_of st) (batch (vars st))) eqn:Hup|];
    cbn -[Nat.modulo] in Hrun;
    destruct (processedCount (vars st) mod 5 =? 0)%nat;
    simplify_eq; simpl; (split; [done|]).
  - left. split_and!; try done. by rewrite <- !app_assoc.
  - left. split_and!; try done. by rewrite <- !app_assoc.
  - right. left. done.
  - right. left. done.
  - right. right. done.
  - right. right. by rewrite app_nil_r.
Qed.

(** An iteration ends in one of the ways of [step_outcome], unless its
    [catch] block throws: the state is then that of a failed iteration
    whose error has not been counted. *)
Lemma iteration_step (batchSize : Z) (doc : value num) (st : state) r st' :
  iteration env batchSize doc st = (r, st') →
  (r = Ok tt ∧ step_outcome env batchSize doc st st') ∨
  (∃ e, r = Throw e ∧
     step_outcome env batchSize doc st
       {| the_world := the_world st'; vars := incr_error (vars st') |} ∧
     errorCount (vars st') = errorCount (vars st) ∧
     skippedCount (vars st') = skippedCount (vars st)).
Proof.
  assert (Hcatch : ∀ w1,
    (w1 = the_world st ∨
     ∃ text r1, getEmbedding env text (the_world st) = (r1, w1)) →
    catch_block doc {| the_world := w1; vars := vars st |} = (r, st') →
    (r = Ok tt ∧ step_outcome env batchSize doc st st') ∨
    (∃ e, r = Throw e ∧
       step_outcome env batchSize doc st
         {| the_world := the_world st'; vars := incr_error (vars st') |} ∧
       errorCount (vars st') = errorCount (vars st) ∧
       skippedCount (vars st') = skippedCount (vars st))).
  { intros w1 Hw1 [(-> & -> & _)|(e & -> & -> & _)]%catch_block_cases.
    - left. split; [done|]. simpl. by apply step_failed.
    - right. exists e. split_and!; try done. simpl. by apply step_failed. }
  assert (Hsame : {| the_world := the_world st; vars := vars st |} = st)
    by by destruct st.
  unfold iteration, try_catch, try_block, pure, assign, modify, in_world,
    mbind, M_bind, mret, M_ret.
  intros Hrun.
  destruct (derive_docId doc) as [[docId|]|e] eqn:Hid; simplify_eq.
  3:{ apply (Hcatch (the_world st)); [by left|by rewrite Hsame]. }
  - destruct (question_text doc) as [text|e] eqn:Htext; simplify_eq.
    2:{ apply (Hcatch (the_world st)); [by left|by rewrite Hsame]. }
    destruct (truthy text) eqn:Htruthy; simpl in Hrun.
    + destruct (getEmbedding env text (the_world st)) as [[emb|e] w1] eqn:Hemb;
        simpl in Hrun.
      2:{ apply (Hcatch w1); [right; eauto|done]. }
      destruct (build_vector doc docId emb) as [v|e] eqn:Hv; simpl in Hrun.
      2:{ apply (Hcatch w1); [right; eauto|done]. }
      destruct (flush_and_pace env batchSize
                  {| the_world := w1;
                     vars := incr_processed (push v (vars st)) |})
        as [r1 st1] eqn:Hflush.
      destruct r1 as [[]|e].
      * simplify_eq. left. split; [done|].
        exact (step_pushed env batchSize doc st docId text emb v w1 (Ok tt) st'
                 Hid Htext Htruthy Hemb Hv Hflush).
      * pose proof (step_pushed env batchSize doc st docId text emb v w1
                      (Throw e) st1 Hid Htext Htruthy Hemb Hv Hflush) as Hstep.
        apply catch_block_cases in Hrun as [(-> & -> & _)|(e' & -> & -> & _)].
        -- left. done.
        -- right. exists e'.
           apply flush_and_pace_exact in Hflush as [_ Hcases]. simpl in Hcases.
           destruct Hcases as
             [(_ & _ & ? & _)|[(_ & _ & _ & Hvars & _)|(_ & ? & _)]];
             [done| |done].
           split_and!; [done|exact Hstep|by rewrite Hvars..].
    + destruct (ToString docId); simplify_eq.
      2:{ apply (Hcatch (the_world st)); [by left|by rewrite Hsame]. }
      left. split; [done|]. apply step_skipped.
  - destruct (get doc "_id") as [_id|e]; simplify_eq.
    2:{ apply (Hcatch (the_world st)); [by left|by rewrite Hsame]. }
    destruct (get doc "id") as [id_|e]; simplify_eq.
    2:{ apply (Hcatch (the_world st)); [by left|by rewrite Hsame]. }
    destruct (JSON_stringify_substring (or_else _id id_)); simplify_eq.
    2:{ apply (Hcatch (the_world st)); [by left|by rewrite Hsame]. }
    left. split; [done|]. apply step_skipped.
Qed.

(** A property of the state that every iteration keeps holds as long as
    the loop goes on; when the [catch] block of an iteration throws, it
    holds of the state the loop is left in, with the error counted. *)
Lemma loop_invariant (Inv : state → Prop) (batchSize : Z)
    (docs : list (value num)) (st : state) r st' :
  (∀ doc st0 st1, doc ∈ docs → Inv st0 →
     step_outcome env batchSize doc st0 st1 → Inv st1) →
  Inv st →
  for_of docs (iteration env batchSize) st = (r, st') →
  (r = Ok tt ∧ Inv st') ∨
  (∃ e, r = Throw e ∧
     Inv {| the_world := the_world st'; vars := incr_error (vars st') |}).
Proof.
  revert st. induction docs as [|doc docs IH]; intros st Hstep Hinv; simpl.
  - unfold mret, M_ret. intros ?. simplify_eq. by left.
  - unfold mbind, M_bind.
    destruct (iteration env batchSize doc st) as [r1 st1] eqn:Hdoc.
    apply iteration_step in Hdoc as [[-> Hout]|(e & -> & Hout & _)].
    + apply IH.
      * intros doc' st0 st2 Hin. apply Hstep. by right.
      * eapply Hstep; [by left|done|done].
    + intros ?. simplify_eq. right. exists e. split; [done|].
      eapply Hstep; [by left|done|done].
Qed.

Lemma POST_outcome (req : request) (questions : value num) (w : world num) :
  run_outcome env req questions w
    (fst (POST env req questions w)) (snd (POST env req questions w)).
Proof.
  unfold POST, migrate, new_Pinecone, when, read, gets, throw, upsert, in_world,
    mbind, M_bind, mret, M_ret.
  destruct questions as [| | | | |docs|]; try (by apply run_not_an_array).
  destruct (client_created env) eqn:Hclient; [|by eapply run_no_client].
  destruct (for_of (apply_limit (limit req) docs)
              (iteration env (default 50%Z (batchSize req)))
              {| the_world := w; vars := initial_locals |})
    as [[[]|e] st1] eqn:Hloop.
  2:{ simpl. by eapply run_aborted. }
  destruct (batch (vars st1)) as [|v b] eqn:Hb; simpl.
  - pose proof (run_completed env req (VArr docs) w docs st1 eq_refl Hclient
                  Hloop Hb) as Hout.
    exact Hout.
  - assert (Hne : batch (vars st1) ≠ []) by by rewrite Hb.
    pose proof (run_flushed env req (VArr docs) w docs st1 eq_refl Hclient
                  Hloop Hne) as Hout.
    unfold stats_of in Hout. rewrite <- Hb.
    by destruct (index_upsert env (trace_of st1) (batch (vars st1))).
Qed.

(** An invariant that follows the documents gone through, for a loop
    that ends normally. *)
Lemma loop_invariant_ok (Inv : list (value num) → state → Prop) (batchSize : Z)
    (docs : list (value num)) (st st' : state) :
  (∀ done doc st0 st1, Inv done st0 →
     step_outcome env batchSize doc st0 st1 → Inv (done ++ [doc]) st1) →
  Inv [] st →
  for_of docs (iteration env batchSize) st = (Ok tt, st') →
  Inv docs st'.
Proof.
  intros Hstep.
  enough (Hgen : ∀ done st0, Inv done st0 →
            for_of docs (iteration env batchSize) st0 = (Ok tt, st') →
            Inv (done ++ docs) st') by apply (Hgen []).
  induction docs as [|doc docs IH]; intros done st0 Hinv; simpl.
  - unfold mret, M_ret. intros ?. simplify_eq. by rewrite app_nil_r.
  - unfold mbind, M_bind.
    destruct (iteration env batchSize doc st0) as [r1 st1] eqn:Hdoc.
    apply iteration_step in Hdoc as [[-> Hout]|(e & -> & _)]; [|done].
    intros Hrest. rewrite (cons_middle doc done docs), app_assoc.
    apply (IH _ st1); [|done]. exact (Hstep done doc st0 st1 Hinv Hout).
Qed.

(** A success response: the loop ended normally and the final flush, if
    there was one, was accepted. *)
Lemma success_run (req : request) (questions : value num) (w w' : world num)
    (s : stats) :
  POST env req questions w = (Success s, w') →
  ∃ docs st1,
    questions = VArr docs ∧
    for_of (apply_limit (limit req) docs)
      (iteration env (default 50%Z (batchSize req)))
      {| the_world := w; vars := initial_locals |} = (Ok tt, st1) ∧
    s = stats_of (length (apply_limit (limit req) docs)) (vars st1) ∧
    ((batch (vars st1) = [] ∧ w' = the_world st1) ∨
     (batch (vars st1) ≠ [] ∧
      index_upsert env (trace_of st1) (batch (vars st1)) = true ∧
      w' = emit (EvUpsert (batch (vars st1))) (the_world st1))).
Proof.
  intros Hrun. pose proof (POST_outcome req questions w) as Hout.
  rewrite Hrun in Hout. simpl in Hout.
  remember (Success s) as resp eqn:Hresp.
  destruct Hout as [Hna|docs -> Hclient|docs e st1 -> Hclient Hloop|
                    docs st1 -> Hclient Hloop Hb|
                    docs st1 -> Hclient Hloop Hb]; try done.
  - exists docs, st1. simplify_eq. split_and!; try done. by left.
  - exists docs, st1.
    destruct (index_upsert env (trace_of st1) (batch (vars st1))) eqn:Hup;
      simplify_eq.
    split_and!; try done. by right.
Qed.

End StepFacts.

(** ** The model across calls *)

Section ModelFacts.
Import JS Text Effects Embedder Props Shapes.
Context {num : Type} `{Numbers num} (env : Env num).

Lemma count_app (kind : event num → bool) (evs1 evs2 : list (event num)) :
  count kind (evs1 ++ evs2) = count kind evs1 + count kind evs2.
Proof. unfold count. by rewrite filter_app, length_app. Qed.

Lemma count_nil (kind : event num → bool) : count kind [] = 0.
Proof. done. Qed.

Lemma count_cons (kind : event num → bool) ev (evs : list (event num)) :
  count kind (ev :: evs) = (if kind ev then 1 else 0) + count kind evs.
Proof.
  unfold count. rewrite filter_cons. destruct (kind ev); by case_decide.
Qed.


(** X4: cleaning never lengthens a text, so a raw text of fewer than
    three characters is always rejected as too short, without any call to
    the model. *)
Theorem short_raw_text_is_rejected (text : string) (w : world num) :
  String.length text < 3 →
  String.length (cleanText text) ≤ String.length text ∧
  getEmbedding env (VStr text) w = (Throw TextTooShort, w).
Proof.
  intros Hshort. pose proof (length_cleanText text) as Hlen.
  split; [done|]. simpl.
  assert (Hlt : (String.length (cleanText text) <? 3) = true).
  { apply Nat.ltb_lt. lia. }
  by rewrite Hlt, orb_true_r.
Qed.

(** What a call of [getEmbedding] does, case by case. *)
Lemma getEmbedding_exact (text : value num) (w : world num) r w' :
  getEmbedding env text w = (r, w') →
  (w' = w ∧ (r = Throw TypeError ∨ r = Throw TextTooShort)) ∨
  ∃ s, text = VStr s ∧ 3 ≤ String.length (cleanText s) ∧
    ((embedder_loaded w = true ∧ embedder_loaded w' = true ∧
      trace w' = trace w ++ [EvEmbed (cleanText s)] ∧
      r = match embedder_output env (trace w) (cleanText s) with
          | Some data => Ok (VNum <$> data)
          | None => Throw EmbeddingFailure
          end) ∨
     (embedder_loaded w = false ∧ pipeline_loads env (trace w) = true ∧
      embedder_loaded w' = true ∧
      trace w' = trace w ++ [EvLoadModel; EvEmbed (cleanText s)] ∧
      r = match embedder_output env (trace w ++ [EvLoadModel]) (cleanText s) with
          | Some data => Ok (VNum <$> data)
          | None => Throw EmbeddingFailure
          end) ∨
     (embedder_loaded w = false ∧ pipeline_loads env (trace w) = false ∧
      embedder_loaded w' = false ∧
      trace w' = trace w ++ [EvLoadModel] ∧
      r = Throw ModelLoadFailure)).
Proof.
  destruct text as [| | | |s| |]; simpl;
    try (unfold throw; intros ?; simplify_eq; left; by auto).
  destruct (String.eqb (cleanText s) "" || (String.length (cleanText s) <? 3))
    eqn:Hshort.
  { unfold throw. intros ?. simplify_eq. left. by auto. }
  apply orb_false_iff in Hshort as [_ Hlen]. apply Nat.ltb_ge in Hlen.
  unfold mbind, M_bind, initEmbedder, pipeline, run_embedder, emit.
  intros Hrun. right. exists s. split; [done|]. split; [done|].
  destruct (embedder_loaded w) eqn:Hloaded.
  - left.
    destruct (embedder_output env (trace w) (cleanText s));
      simplify_eq; simpl; rewrite ?Hloaded; done.
  - right. destruct (pipeline_loads env (trace w)) eqn:Hload; simpl in Hrun.
    + left.
      destruct (embedder_output env (trace w ++ [EvLoadModel]) (cleanText s));
        simplify_eq; simpl; rewrite <- ?app_assoc; done.
    + right. simplify_eq. simpl. rewrite ?Hloaded. done.
Qed.

(** The loads a call of [getEmbedding] makes: none once the model is
    loaded, which it then stays; at most one otherwise, after which the
    model is loaded if the load succeeded.  No other kind of call but
    running the model is made. *)
Lemma getEmbedding_loads (text : value num) (w : world num) r w' :
  getEmbedding env text w = (r, w') →
  ∃ evs,
    trace w' = trace w ++ evs ∧
    count is_load evs ≤ 1 ∧
    count is_embed evs ≤ 1 ∧
    count is_upsert evs = 0 ∧ count is_query evs = 0 ∧
    (∀ ms, count (is_sleep ms) evs = 0) ∧
    (embedder_loaded w = true →
       embedder_loaded w' = true ∧ count is_load evs = 0) ∧
    ((∀ tr, pipeline_loads env tr = true) →
       embedder_loaded w' = false →
       embedder_loaded w = false ∧ count is_load evs = 0).
Proof.
  intros [[-> _]|(s & -> & _ & Hcases)]%getEmbedding_exact.
  - exists []. rewrite app_nil_r.
    split_and!; try done; try (cbv; lia); by intros.
  - destruct Hcases as
      [(Hw & Hw' & Htr & _)|[(Hw & Hload & Hw' & Htr & _)|(Hw & Hload & Hw' & Htr & _)]];
      eexists; (split; [exact Htr|]); split_and!; try done;
      try (cbv; lia); try (intros; congruence).
Qed.

End ModelFacts.

(** ** What an iteration and a run add to the trace *)

Section RunFacts.
Import JS Text Effects Embedder Migrate Props Shapes.
Context {num : Type} `{Numbers num} (env : Env num).

#[local] Abbreviation state := (Migrate.state num).
#[local] Abbreviation trace_of st := (trace (the_world st)).
#[local] Abbreviation loaded st := (embedder_loaded (the_world st)).

Lemma count_pace (kind : event num → bool) (n : nat) :
  (∀ ms, kind (EvSleep ms) = false) → count kind (pace n) = 0.
Proof.
  intros Hkind. unfold pace, count. destruct (n mod 5 =? 0); [|done].
  rewrite filter_cons, decide_False; [done|]. by rewrite Hkind.
Qed.

Lemma count_model_events (kind : event num → bool) (evs : list (event num)) :
  kind EvLoadModel = false → (∀ s, kind (EvEmbed s) = false) →
  Forall (λ ev, model_event ev = true) evs → count kind evs = 0.
Proof.
  intros Hload Hembed Hevs. unfold count.
  induction Hevs as [|ev evs Hev _ IH]; [done|].
  rewrite filter_cons, decide_False; [done|].
  destruct ev; simpl in *; try done; by rewrite ?Hload, ?Hembed.
Qed.

(** The variables and the store across an iteration.  Either no record is
    pushed: the batch and [processedCount] are kept, one of [errorCount]
    and [skippedCount] grows by one, and only the model may have been
    called.  Or a record built from the document is pushed and counted,
    and the flush and the delays follow as the length of the batch, the
    store and the count decide. *)
Lemma step_store (batchSize : Z) (doc : value num) (st st' : state) :
  step_outcome env batchSize doc st st' →
  (processedCount (vars st') = processedCount (vars st) ∧
   batch (vars st') = batch (vars st) ∧
   errorCount (vars st') + skippedCount (vars st')
     = S (errorCount (vars st) + skippedCount (vars st)) ∧
   ∃ evs, trace_of st' = trace_of st ++ evs ∧
          Forall (λ ev, model_event ev = true) evs) ∨
  ∃ docId text emb v w1 evs,
    derive_docId doc = Ok (Some docId) ∧
    question_text doc = Ok text ∧
    getEmbedding env text (the_world st) = (Ok emb, w1) ∧
    build_vector doc docId emb = Ok v ∧
    trace w1 = trace_of st ++ evs ∧
    Forall (λ ev, model_event ev = true) evs ∧
    processedCount (vars st') = S (processedCount (vars st)) ∧
    skippedCount (vars st') = skippedCount (vars st) ∧
    let b := batch (vars st) ++ [v] in
    let n := S (processedCount (vars st)) in
    (((batchSize ≤ Z.of_nat (length b))%Z ∧
      index_upsert env (trace w1) b = true ∧
      batch (vars st') = [] ∧ errorCount (vars st') = errorCount (vars st) ∧
      trace_of st' = trace w1 ++ EvUpsert b :: EvSleep 1000 :: pace n) ∨
     ((batchSize ≤ Z.of_nat (length b))%Z ∧
      index_upsert env (trace w1) b = false ∧
      batch (vars st') = b ∧ errorCount (vars st') = S (errorCount (vars st)) ∧
      trace_of st' = trace w1 ++ [EvUpsert b]) ∨
     ((Z.of_nat (length b) < batchSize)%Z ∧
      batch (vars st') = b ∧ errorCount (vars st') = errorCount (vars st) ∧
      trace_of st' = trace w1 ++ pace n)).
Proof.
  intros [w1 Hw1| |docId text emb v w1 r st1 Hid Htext Htruthy Hemb Hv Hflush].
  - left. simpl. split_and!; try done; try lia.
    destruct Hw1 as [->|(text & r & Hemb)].
    + exists []. by rewrite app_nil_r.
    + by apply getEmbedding_trace in Hemb.
  - left. simpl. split_and!; try done; try lia.
    exists []. by rewrite app_nil_r.
  - right. pose proof Hemb as (evs & Htr & Hevs)%getEmbedding_trace.
    exists docId, text, emb, v, w1, evs.
    apply flush_and_pace_exact in Hflush as [_ Hcases]. simpl in Hcases.
    destruct Hcases as
      [(Hfull & Hup & -> & Hvars & Htr1)|
       [(Hfull & Hup & -> & Hvars & Htr1)|(Hfull & -> & Hvars & Htr1)]];
      simpl; rewrite Hvars; simpl; split_and!; try done.
    + left. done.
    + right. left. done.
    + right. right. done.
Qed.

(** The calls of one iteration by kind: no query; at most one load and
    one run of the model; no load once the model is loaded. *)
Lemma step_calls (batchSize : Z) (doc : value num) (st st' : state) :
  step_outcome env batchSize doc st st' →
  ∃ evs,
    trace_of st' = trace_of st ++ evs ∧
    count is_query evs = 0 ∧
    count is_load evs ≤ 1 ∧
    count is_embed evs ≤ 1 ∧
    (loaded st = true → loaded st' = true ∧ count is_load evs = 0) ∧
    ((∀ tr, pipeline_loads env tr = true) →
       loaded st' = false → loaded st = false ∧ count is_load evs = 0).
Proof.
  assert (Hnone : ∃ evs : list (event num),
    trace_of st = trace_of st ++ evs ∧ count is_query evs = 0 ∧
    count is_load evs ≤ 1 ∧ count is_embed evs ≤ 1 ∧
    (loaded st = true → loaded st = true ∧ count is_load evs = 0) ∧
    ((∀ tr, pipeline_loads env tr = true) →
       loaded st = false → loaded st = false ∧ count is_load evs = 0)).
  { exists []. rewrite app_nil_r. split_and!; try done; try (cbv; lia).
    }
  intros [w1 Hw1| |docId text emb v w1 r st1 Hid Htext Htruthy Hemb Hv Hflush].
  - destruct Hw1 as [->|(text & r & Hemb)]; [exact Hnone|]. simpl.
    apply getEmbedding_loads in Hemb
      as (evs & Htr & Hl & He & _ & Hq & _ & Hloaded & Hrel).
    exists evs. by split_and!.
  - exact Hnone.
  - apply getEmbedding_loads in Hemb
      as (evs & Htr & Hl & He & _ & Hq & _ & Hloaded & Hrel).
    apply flush_and_pace_exact in Hflush as [Hsame Hcases]. simpl in Hsame, Hcases.
    assert (∃ evs', trace_of st1 = trace w1 ++ evs' ∧
              count is_query evs' = 0 ∧ count is_load evs' = 0 ∧
              count is_embed evs' = 0) as (evs' & Htr' & Hq' & Hl' & He').
    { destruct Hcases as
        [(_ & _ & _ & _ & Htr1)|[(_ & _ & _ & _ & Htr1)|(_ & _ & _ & Htr1)]];
        eexists; (split; [exact Htr1|]);
        rewrite ?count_cons, ?count_nil, ?count_pace by done; done. }
    assert (Hworld : the_world
              match r with
              | Ok _ => st1
              | Throw _ => {| the_world := the_world st1;
                              vars := incr_error (vars st1) |}
              end = the_world st1) by by destruct r.
    rewrite Hworld. exists (evs ++ evs').
    rewrite !count_app, Hq, Hq', Hl', He', Htr', Htr, app_assoc, Hsame.
    split_and!; try done; try lia.
    + intros Hst. destruct (Hloaded Hst) as [-> ->]. done.
    + intros Hreliable Hw1. destruct (Hrel Hreliable Hw1) as [-> ->]. done.
Qed.

(** A run of the route from its loop invariant, for an invariant that
    does not look at [errorCount]: the run ends before the loop with
    nothing called, or the invariant holds of the state the loop ends in,
    normally or by an exception, and the final flush, if any, is the last
    call. *)
Lemma run_invariant (Inv : state → Prop) (req : request)
    (questions : value num) (w : world num) resp w' :
  POST env req questions w = (resp, w') →
  Inv {| the_world := w; vars := initial_locals |} →
  (∀ doc st0 st1, Inv st0 →
     step_outcome env (default 50%Z (batchSize req)) doc st0 st1 → Inv st1) →
  (∀ st0, Inv {| the_world := the_world st0; vars := incr_error (vars st0) |} →
          Inv st0) →
  (w' = w ∧ ∃ e, resp = Failure 500 e) ∨
  ∃ docs st1,
    questions = VArr docs ∧ Inv st1 ∧
    let s := stats_of (length (apply_limit (limit req) docs)) (vars st1) in
    ((batch (vars st1) = [] ∧ w' = the_world st1 ∧ resp = Success s) ∨
     (batch (vars st1) ≠ [] ∧
      w' = emit (EvUpsert (batch (vars st1))) (the_world st1) ∧
      resp = if index_upsert env (trace_of st1) (batch (vars st1))
             then Success s else Failure 500 StoreFailure) ∨
     (w' = the_world st1 ∧ ∃ e, resp = Failure 500 e)).
Proof.
  intros Hrun Hinit Hstep Hcount.
  pose proof (POST_outcome env req questions w) as Hout.
  rewrite Hrun in Hout. simpl in Hout.
  destruct Hout as [Hna|docs -> Hclient|docs e st1 -> Hclient Hloop|
                    docs st1 -> Hclient Hloop Hb|
                    docs st1 -> Hclient Hloop Hb].
  - left. eauto.
  - left. eauto.
  - right. exists docs, st1.
    destruct (loop_invariant env Inv _ _ _ _ _
                (λ doc st0 st2 _ Hi Ho, Hstep doc st0 st2 Hi Ho) Hinit Hloop)
      as [[? _]|(e' & _ & Hinv)]; [done|].
    split_and!; [done|by apply Hcount|]. right. right. eauto.
  - right. exists docs, st1.
    destruct (loop_invariant env Inv _ _ _ _ _
                (λ doc st0 st2 _ Hi Ho, Hstep doc st0 st2 Hi Ho) Hinit Hloop)
      as [[_ Hinv]|(e' & ? & _)]; [|done].
    split_and!; try done. by left.
  - right. exists docs, st1.
    destruct (loop_invariant env Inv _ _ _ _ _
                (λ doc st0 st2 _ Hi Ho, Hstep doc st0 st2 Hi Ho) Hinit Hloop)
      as [[_ Hinv]|(e' & ? & _)]; [|done].
    split_and!; try done. right. by left.
Qed.

(** The calls of a search by kind. *)
Lemma search_calls (req : Search.request num) (w : world num) resp w' :
  Search.POST env req w = (resp, w') →
  ∃ evs,
    trace w' = trace w ++ evs ∧
    count is_upsert evs = 0 ∧
    (∀ ms, count (is_sleep ms) evs = 0) ∧
    count is_query evs ≤ 1 ∧
    count is_embed evs ≤ 1 ∧
    count is_load evs ≤ 1 ∧
    (embedder_loaded w = true →
       embedder_loaded w' = true ∧ count is_load evs = 0).
Proof.
  unfold Search.POST, Search.search, Search.new_Pinecone,
    Search.index_query_call, emit, pure, throw, mbind, M_bind, mret, M_ret.
  assert (Hnone : ∃ evs : list (event num),
    trace w = trace w ++ evs ∧ count is_upsert evs = 0 ∧
    (∀ ms, count (is_sleep ms) evs = 0) ∧ count is_query evs ≤ 1 ∧
    count is_embed evs ≤ 1 ∧ count is_load evs ≤ 1 ∧
    (embedder_loaded w = true →
       embedder_loaded w = true ∧ count is_load evs = 0)).
  { exists []. rewrite app_nil_r. split_and!; try done; cbv; lia. }
  destruct (Search.query_missing (Search.query req)) as [[]|e];
    [intros ?; by simplify_eq..| |intros ?; by simplify_eq].
  destruct (getEmbedding env (Search.query req) w) as [r w1] eqn:Hemb.
  apply getEmbedding_loads in Hemb
    as (evs & Htr & Hl & He & Hu & Hq & Hs & Hloaded & _).
  destruct r as [emb|e].
  2:{ intros ?. simplify_eq. exists evs. split_and!; try done. lia. }
  destruct (client_created env).
  2:{ intros ?. simplify_eq. exists evs. split_and!; try done. lia. }
  intros Hrun.
  exists (evs ++ [EvQuery emb (default 10%Z (Search.topK req))
            (Search.filter_argument
               (Search.build_filter (Search.subject req) (Search.topic req)
                  (Search.course req)))]).
  assert (Hw' : trace w' = trace w1 ++ [EvQuery emb (default 10%Z (Search.topK req))
            (Search.filter_argument
               (Search.build_filter (Search.subject req) (Search.topic req)
                  (Search.course req)))] ∧ embedder_loaded w' = embedder_loaded w1).
  { simpl in Hrun.
    destruct (index_query env (trace w1) emb (default 10%Z (Search.topK req))
                (Search.filter_argument
                   (Search.build_filter (Search.subject req) (Search.topic req)
                      (Search.course req)))); by simplify_eq. }
  destruct Hw' as [Htr' Hsame].
  rewrite !count_app, !count_cons, !count_nil, Hu, Hq, Htr', Htr, app_assoc, Hsame.
  simpl. split_and!; try done; try lia.
  - intros ms. by rewrite count_app, Hs.
  - intros Hw. destruct (Hloaded Hw) as [-> ->]. done.
Qed.

(** X5: once the model is loaded it is never loaded again: a run of
    either route that starts with the embedder set makes no call to
    [pipeline] and ends with the embedder still set. *)
Theorem loaded_model_is_not_reloaded
    (req : request) (questions : value num) (query : Search.request num)
    (w : world num) :
  embedder_loaded w = true →
  (embedder_loaded (snd (POST env req questions w)) = true ∧
   ∃ evs, trace (snd (POST env req questions w)) = trace w ++ evs ∧
          count is_load evs = 0) ∧
  (embedder_loaded (snd (Search.POST env query w)) = true ∧
   ∃ evs, trace (snd (Search.POST env query w)) = trace w ++ evs ∧
          count is_load evs = 0).
Proof.
  intros Hw. split.
  - destruct (POST env req questions w) as [resp w'] eqn:Hrun. simpl.
    pose (Inv := λ st : state,
      loaded st = true ∧
      ∃ evs, trace_of st = trace w ++ evs ∧ count is_load evs = 0).
    destruct (run_invariant Inv req questions w resp w' Hrun) as
      [[-> _]|(docs & st1 & _ & [Hl (evs & Htr & Hcount)] & Hend)].
    + split; [done|]. exists []. by rewrite app_nil_r.
    + intros doc st0 st2 [Hl0 (evs0 & Htr0 & Hc0)] Hstep.
      apply step_calls in Hstep as (evs & Htr & _ & _ & _ & Hloaded & _).
      destruct (Hloaded Hl0) as [Hl2 Hc]. split; [done|].
      exists (evs0 ++ evs). by rewrite count_app, Hc0, Hc, Htr, Htr0, app_assoc.
    + by intros st0.
    + split; [done|]. exists []. by rewrite app_nil_r.
    + cbv zeta in Hend.
      destruct Hend as [(_ & -> & _)|[(_ & -> & _)|(-> & _)]].
      * split; [done|]. by exists evs.
      * split; [done|]. exists (evs ++ [EvUpsert (batch (vars st1))]).
        simpl. by rewrite count_app, Hcount, Htr, app_assoc.
      * split; [done|]. by exists evs.
  - destruct (Search.POST env query w) as [resp w'] eqn:Hrun. simpl.
    apply search_calls in Hrun as (evs & Htr & _ & _ & _ & _ & _ & Hloaded).
    destruct (Hloaded Hw) as [Hw' Hc]. split; [done|]. by exists evs.
Qed.

(** X6: when every call to [pipeline] succeeds, a whole ingestion run
    loads the model at most once, however many records it embeds. *)
Theorem model_loaded_at_most_once
    (req : request) (questions : value num) (w : world num) :
  (∀ tr, pipeline_loads env tr = true) →
  ∃ evs, trace (snd (POST env req questions w)) = trace w ++ evs ∧
         count is_load evs ≤ 1.
Proof.
  intros Hreliable.
  destruct (POST env req questions w) as [resp w'] eqn:Hrun. simpl.
  pose (Inv := λ st : state,
    ∃ evs, trace_of st = trace w ++ evs ∧ count is_load evs ≤ 1 ∧
           (loaded st = false → count is_load evs = 0)).
  destruct (run_invariant Inv req questions w resp w' Hrun) as
    [[-> _]|(docs & st1 & _ & (evs & Htr & Hcount & _) & Hend)].
  - exists []. rewrite app_nil_r. split_and!; try done. cbv; lia.
  - intros doc st0 st2 (evs0 & Htr0 & Hc0 & Hnot0) Hstep.
    apply step_calls in Hstep as (evs & Htr & _ & Hc & _ & Hloaded & Hrel).
    exists (evs0 ++ evs). rewrite count_app, Htr, Htr0, app_assoc.
    split; [done|]. destruct (loaded st0) eqn:Hl0.
    + destruct (Hloaded eq_refl) as [Hl2 ->]. split; [lia|]. congruence.
    + rewrite (Hnot0 eq_refl). split; [lia|].
      intros Hl2. by destruct (Hrel Hreliable Hl2) as [_ ->].
  - by intros st0.
  - exists []. rewrite app_nil_r. split; [done|]. cbv; lia.
  - cbv zeta in Hend.
    destruct Hend as [(_ & -> & _)|[(_ & -> & _)|(-> & _)]].
    + by exists evs.
    + exists (evs ++ [EvUpsert (batch (vars st1))]).
      simpl. rewrite count_app, Htr, app_assoc. split; [done|].
      rewrite count_cons, count_nil. simpl. lia.
    + by exists evs.
Qed.

(** X7: the two routes use the store one way each.  An ingestion run
    never queries it.  A search never upserts and never delays; it runs
    the model at most once and queries the store at most once. *)
Theorem routes_use_the_store_one_way
    (req : request) (questions : value num) (query : Search.request num)
    (w : world num) :
  (∃ evs, trace (snd (POST env req questions w)) = trace w ++ evs ∧
          count is_query evs = 0) ∧
  (∃ evs, trace (snd (Search.POST env query w)) = trace w ++ evs ∧
          count is_upsert evs = 0 ∧
          (∀ ms, count (is_sleep ms) evs = 0) ∧
          count is_embed evs ≤ 1 ∧
          count is_query evs ≤ 1).
Proof.
  split.
  - destruct (POST env req questions w) as [resp w'] eqn:Hrun. simpl.
    pose (Inv := λ st : state,
      ∃ evs, trace_of st = trace w ++ evs ∧ count is_query evs = 0).
    destruct (run_invariant Inv req questions w resp w' Hrun) as
      [[-> _]|(docs & st1 & _ & (evs & Htr & Hcount) & Hend)].
    + exists []. by rewrite app_nil_r.
    + intros doc st0 st2 (evs0 & Htr0 & Hc0) Hstep.
      apply step_calls in Hstep as (evs & Htr & Hq & _).
      exists (evs0 ++ evs). by rewrite count_app, Hc0, Hq, Htr, Htr0, app_assoc.
    + by intros st0.
    + exists []. by rewrite app_nil_r.
    + cbv zeta in Hend.
      destruct Hend as [(_ & -> & _)|[(_ & -> & _)|(-> & _)]].
      * by exists evs.
      * exists (evs ++ [EvUpsert (batch (vars st1))]).
        simpl. by rewrite count_app, Hcount, Htr, app_assoc.
      * by exists evs.
  - destruct (Search.POST env query w) as [resp w'] eqn:Hrun. simpl.
    apply search_calls in Hrun as (evs & Htr & Hu & Hs & Hq & He & _).
    by exists evs.
Qed.

(** *** Which records are covered *)

(** X8: a positive limit [n] keeps the first [n] records (all of them when
    there are fewer); a negative limit [-k] drops the last [k] records;
    in every case the records covered are a prefix of the source, and a
    success response reports their number as [totalDocuments]. *)
Theorem limit_keeps_a_prefix
    (req : request) (docs : list (value num)) (w : world num) :
  (∀ n, (0 < n)%Z →
     apply_limit (LimitNumber n) docs = take (Z.to_nat n) docs) ∧
  (∀ k, (0 < k)%Z →
     apply_limit (LimitNumber (- k)) docs
     = take (length docs - Z.to_nat k) docs) ∧
  apply_limit (limit req) docs `prefix_of` docs ∧
  ∀ s w', POST env req (VArr docs) w = (Success s, w') →
    totalDocuments s = length (apply_limit (limit req) docs) ∧
    totalDocuments s ≤ length docs.
Proof.
  split_and!.
  - intros n Hn. unfold apply_limit, limit_truthy, slice_to. simpl.
    destruct (n =? 0)%Z eqn:H0; [lia|]. simpl.
    destruct (n <? 0)%Z eqn:Hneg; [lia|].
    destruct (decide (n ≤ Z.of_nat (length docs))%Z).
    + by rewrite Z.min_l.
    + rewrite Z.min_r by lia. rewrite Nat2Z.id, !take_ge; [done|lia|lia].
  - intros k Hk. unfold apply_limit, limit_truthy, slice_to. simpl.
    destruct (- k =? 0)%Z eqn:H0; [lia|]. simpl.
    destruct (- k <? 0)%Z eqn:Hneg; [|lia]. f_equal. lia.
  - unfold apply_limit, slice_to. destruct (limit_truthy (limit req)); [|done].
    apply prefix_take.
  - intros s w' Hrun.
    assert (Hlen : length (apply_limit (limit req) docs) ≤ length docs).
    { unfold apply_limit, slice_to. destruct (limit_truthy (limit req)); [|done].
      rewrite length_take. lia. }
    destruct (run_invariant (λ _, True) req (VArr docs) w _ _ Hrun I
                (λ _ _ _ _ _, I) (λ _ _, I)) as
      [[_ [e ?]]|(docs' & st1 & [= <-] & _ & Hend)]; [done|].
    cbv zeta in Hend.
    destruct Hend as [(_ & _ & Hresp)|[(_ & _ & Hresp)|(_ & e & Hresp)]].
    + by simplify_eq.
    + destruct (index_upsert env (trace_of st1) (batch (vars st1)));
        by simplify_eq.
    + done.
Qed.

(** X9: a run with nothing to process calls nothing.  A source that is
    not an array, or a client that cannot be created, gives the error
    response; no record, or none left by the limit, gives the success
    response with every counter at zero and no final flush. *)
Theorem nothing_to_ingest_calls_nothing
    (req : request) (questions : value num) (w : world num) :
  ((∀ docs, questions ≠ VArr docs) →
   POST env req questions w = (Failure 500 NotAnArray, w)) ∧
  (∀ docs, questions = VArr docs → client_created env = false →
   POST env req questions w = (Failure 500 ClientFailure, w)) ∧
  (∀ docs, questions = VArr docs → client_created env = true →
   apply_limit (limit req) docs = [] →
   POST env req questions w
   = (Success {| totalDocuments := 0; totalProcessed := 0; errors := 0;
                 skipped := 0; finalBatchSize := 0 |}, w)).
Proof.
  unfold POST, migrate, new_Pinecone, throw, mbind, M_bind, mret, M_ret.
  split_and!.
  - intros Hna. destruct questions; try done. by destruct (Hna elems).
  - intros docs -> Hclient. by rewrite Hclient.
  - intros docs -> Hclient Hnone. by rewrite Hclient, Hnone.
Qed.

(** *** Iterations that push nothing *)

(** X10: an iteration that does not count its record as processed leaves
    the batch as it was and touches neither the store nor the clock: the
    only calls it can have made are to the model.  When it ends normally
    it has counted the record once, as an error or as skipped.  When it
    ends by an exception, which is then the one its [catch] block throws
    on an id that cannot be printed, it has counted nothing. *)
Theorem unprocessed_record_touches_no_store
    (size : Z) (doc : value num) (st : state) r st' :
  iteration env size doc st = (r, st') →
  processedCount (vars st') = processedCount (vars st) →
  batch (vars st') = batch (vars st) ∧
  match r with
  | Ok _ =>
      errorCount (vars st') + skippedCount (vars st')
      = S (errorCount (vars st) + skippedCount (vars st))
  | Throw e =>
      errorCount (vars st') = errorCount (vars st) ∧
      skippedCount (vars st') = skippedCount (vars st) ∧
      ToString (or_else (docId_in_catch doc) (VStr "[unknown]")) = Throw e
  end ∧
  ∃ evs, trace_of st' = trace_of st ++ evs ∧
    count is_upsert evs = 0 ∧ count is_query evs = 0 ∧
    ∀ ms, count (is_sleep ms) evs = 0.
Proof.
  intros Hrun Hsame. pose proof Hrun as Hstep.
  apply iteration_step in Hstep as [[-> Hstep]|(e & -> & Hstep & Herr & Hskip)];
    apply step_store in Hstep as
      [(_ & Hbatch & Hcount & evs & Htr & Hevs)|
       (? & ? & ? & ? & ? & ? & _ & _ & _ & _ & _ & _ & Hproc & _)];
    simpl in *; try lia.
  - split_and!; try done. exists evs. split_and!; try done;
      intros; by apply count_model_events.
  - apply iteration_throws in Hrun.
    split_and!; try done; try lia. exists evs. split_and!; try done;
      intros; by apply count_model_events.
Qed.



(** *** What is sent to the store *)







Lemma accepted_app (before evs1 evs2 : list (event num)) :
  accepted env before (evs1 ++ evs2)
  = accepted env before evs1 ++ accepted env (before ++ evs1) evs2.
Proof.
  revert before. induction evs1 as [|ev evs1 IH]; intros before; simpl.
  - by rewrite app_nil_r.
  - by rewrite IH, <- !app_assoc.
Qed.

Lemma accepted_model_events (before evs : list (event num)) :
  Forall (λ ev, model_event ev = true) evs → accepted env before evs = [].
Proof.
  intros Hevs. revert before.
  induction Hevs as [|ev evs Hev _ IH]; intros before; simpl; [done|].
  rewrite IH. by destruct ev.
Qed.

Lemma accepted_pace (before : list (event num)) (n : nat) :
  accepted env before (pace n) = [].
Proof. unfold pace. by destruct (n mod 5 =? 0). Qed.

(** X14: in a success response the records the store has accepted are
    the records counted as processed, each once: there are
    [totalProcessed] of them, and they are built one by one from
    documents of the source taken in its order, no document being used
    twice.  A record whose flush was rejected inside the loop is among
    them, accepted with a later flush. *)
Theorem processed_records_are_accepted_once
    (req : request) (docs : list (value num)) (w w' : world num) (s : stats) :
  POST env req (VArr docs) w = (Success s, w') →
  ∃ evs kept,
    trace w' = trace w ++ evs ∧
    kept `sublist_of` docs ∧
    Forall2 built_from kept (accepted env (trace w) evs) ∧
    length (accepted env (trace w) evs) = totalProcessed s.
Proof.
  intros (docs' & st1 & [= <-] & Hloop & -> & Hend)%success_run.
  pose (Inv := λ (done : list (value num)) (st : state),
    ∃ evs kept,
      trace_of st = trace w ++ evs ∧
      kept `sublist_of` done ∧
      Forall2 built_from kept (accepted env (trace w) evs ++ batch (vars st)) ∧
      length (accepted env (trace w) evs ++ batch (vars st))
      = processedCount (vars st)).
  assert (Hinv : Inv (apply_limit (limit req) docs) st1).
  { eapply (loop_invariant_ok env Inv); [| |exact Hloop].
    - intros done doc st0 st2 (evs0 & kept0 & Htr0 & Hsub0 & Hbuilt0 & Hlen0) Hstep.
      apply step_store in Hstep as
        [(Hproc & Hbatch & _ & evs & Htr & Hevs)|
         (docId & text & emb & v & w1 & evs & Hid & _ & _ & Hv & Htr1 & Hevs
          & Hproc & _ & Hcases)].
      + exists (evs0 ++ evs), kept0.
        rewrite Htr, Htr0, app_assoc, accepted_app,
          (accepted_model_events _ _ Hevs), app_nil_r, Hproc, Hbatch.
        split_and!; try done. by apply sublist_inserts_r.
      + assert (Hpushed : Forall2 built_from (kept0 ++ [doc])
                  (accepted env (trace w) evs0 ++ batch (vars st0) ++ [v])).
        { rewrite app_assoc. apply Forall2_app; [done|].
          constructor; [by exists docId, emb|constructor]. }
        assert (Hlen : length (accepted env (trace w) evs0
                               ++ batch (vars st0) ++ [v])
                       = S (processedCount (vars st0))).
        { rewrite app_assoc, length_app, Hlen0. simpl. lia. }
        assert (Hsub : kept0 ++ [doc] `sublist_of` done ++ [doc])
          by by apply sublist_app.
        assert (Hw1 : (trace w ++ evs0) ++ evs = trace w1)
          by by rewrite Htr1, Htr0.
        cbv zeta in Hcases.
        destruct Hcases as
          [(_ & Hup & Hb & _ & Htr)|[(_ & Hup & Hb & _ & Htr)|(_ & Hb & _ & Htr)]].
        * exists (evs0 ++ evs ++ EvUpsert (batch (vars st0) ++ [v])
                    :: EvSleep 1000 :: pace (S (processedCount (vars st0)))),
            (kept0 ++ [doc]).
          rewrite Htr, Htr1, Htr0, <- !app_assoc. split; [done|].
          rewrite !accepted_app, (accepted_model_events _ _ Hevs), Hproc, Hb.
          simpl. rewrite Hw1, Hup, accepted_pace, !app_nil_r.
          done.
        * exists (evs0 ++ evs ++ [EvUpsert (batch (vars st0) ++ [v])]),
            (kept0 ++ [doc]).
          rewrite Htr, Htr1, Htr0, <- !app_assoc. split; [done|].
          rewrite !accepted_app, (accepted_model_events _ _ Hevs), Hproc, Hb.
          simpl. rewrite Hw1, Hup, !app_nil_r.
          done.
        * exists (evs0 ++ evs ++ pace (S (processedCount (vars st0)))),
            (kept0 ++ [doc]).
          rewrite Htr, Htr1, Htr0, <- !app_assoc. split; [done|].
          rewrite !accepted_app, (accepted_model_events _ _ Hevs), Hproc, Hb.
          rewrite accepted_pace, !app_nil_r.
          done.
    - exists [], []. simpl. rewrite app_nil_r. by split_and!. }
  destruct Hinv as (evs & kept & Htr & Hsub & Hbuilt & Hlen).
  assert (Hdocs : kept `sublist_of` docs).
  { etrans; [exact Hsub|]. unfold apply_limit, slice_to.
    destruct (limit_truthy (limit req)); [|done]. apply sublist_take. }
  destruct Hend as [(Hb & ->)|(Hb & Hup & ->)].
  - exists evs, kept. rewrite Hb, app_nil_r in Hbuilt, Hlen. done.
  - exists (evs ++ [EvUpsert (batch (vars st1))]), kept.
    simpl. rewrite Htr, <- app_assoc, accepted_app. simpl.
    rewrite <- Htr, Hup, !app_nil_r. done.
Qed.

(** *** The contents of the records *)








(** *** The delays *)

Lemma count_sleep_pace (n : nat) :
  count (is_sleep 200) (pace n : list (event num))
  = (if (n mod 5 =? 0)%nat then 1 else 0) ∧
  count (is_sleep 1000) (pace n : list (event num)) = 0.
Proof. unfold pace. by destruct (n mod 5 =? 0). Qed.

Lemma div_5_succ (n : nat) :
  S n / 5 = n / 5 + (if (S n mod 5 =? 0)%nat then 1 else 0).
Proof.
  pose proof (Nat.div_mod_eq n 5) as Hn.
  pose proof (Nat.div_mod_eq (S n) 5) as HSn.
  pose proof (Nat.mod_upper_bound n 5 ltac:(lia)) as Hlt.
  pose proof (Nat.mod_upper_bound (S n) 5 ltac:(lia)) as HSlt.
  destruct (S n mod 5 =? 0)%nat eqn:Hz;
    [apply Nat.eqb_eq in Hz|apply Nat.eqb_neq in Hz]; lia.
Qed.

Lemma upsert_rhythm_app (pending pending' : bool) (evs1 evs2 : list (event num)) :
  upsert_rhythm pending evs1 = Some pending' →
  upsert_rhythm pending (evs1 ++ evs2) = upsert_rhythm pending' evs2.
Proof.
  revert pending. induction evs1 as [|ev evs1 IH]; intros pending.
  - by intros [= <-].
  - cbn [app upsert_rhythm].
    destruct ev as [| | | |ms]; try destruct (ms =? 1000)%nat;
      destruct pending; try done; apply IH.
Qed.

Lemma upsert_rhythm_model_events (evs : list (event num)) :
  Forall (λ ev, model_event ev = true) evs →
  upsert_rhythm false evs = Some false.
Proof.
  intros Hevs. induction Hevs as [|ev evs Hev _ IH]; [done|].
  by destruct ev.
Qed.

Lemma upsert_rhythm_pace (n : nat) :
  upsert_rhythm false (pace n : list (event num)) = Some false.
Proof. unfold pace. by destruct (n mod 5 =? 0). Qed.

(** X16: with a store that accepts every upsert, a successful run pauses
    for 200 ms once for every fifth processed record, and the upserts and
    the pauses of 1000 ms alternate: every upsert but the last call of the
    run is followed at once by a pause of 1000 ms, and such a pause comes
    nowhere else.  The last call of the run is an upsert exactly when
    [finalBatchSize] is not zero: the final flush is the one upsert not
    followed by a pause. *)
Theorem delays_follow_the_upserts
    (req : request) (questions : value num) (w w' : world num) (s : stats) :
  (∀ tr recs, index_upsert env tr recs = true) →
  POST env req questions w = (Success s, w') →
  ∃ evs, trace w' = trace w ++ evs ∧
    count (is_sleep 200) evs = totalProcessed s / 5 ∧
    upsert_rhythm false evs = Some (0 <? finalBatchSize s)%nat ∧
    count (is_sleep 1000) evs + (if (0 <? finalBatchSize s)%nat then 1 else 0)
    = count is_upsert evs.
Proof.
  intros Hreliable Hrun.
  pose (Inv := λ st : state,
    ∃ evs, trace_of st = trace w ++ evs ∧
      count (is_sleep 200) evs = processedCount (vars st) / 5 ∧
      upsert_rhythm false evs = Some false ∧
      count (is_sleep 1000) evs = count is_upsert evs).
  destruct (run_invariant Inv req questions w _ w' Hrun) as
    [[_ [e ?]]|(docs & st1 & _ & (evs & Htr & H200 & Hrhythm & H1000) & Hend)];
    [| | |done|].
  - exists []. simpl. rewrite app_nil_r. by split_and!.
  - intros doc st0 st2 (evs0 & Htr0 & H200 & Hrhythm & H1000) Hstep.
    apply step_store in Hstep as
      [(Hproc & _ & _ & evs & Htr & Hevs)|
       (docId & text & emb & v & w1 & evs & _ & _ & _ & _ & Htr1 & Hevs & Hproc & _
        & Hcases)].
    + exists (evs0 ++ evs).
      rewrite Htr, Htr0, app_assoc, !count_app, Hproc, H200, H1000,
        !(count_model_events _ _ eq_refl (λ _, eq_refl) Hevs),
        (upsert_rhythm_app _ _ _ _ Hrhythm), (upsert_rhythm_model_events _ Hevs).
      split_and!; [done|lia|done|lia].
    + cbv zeta in Hcases.
      destruct (count_sleep_pace (S (processedCount (vars st0)))) as [Hp200 Hp1000].
      destruct Hcases as
        [(_ & _ & _ & _ & Htr)|[(_ & Hup & _)|(_ & _ & _ & Htr)]];
        [|by rewrite Hreliable in Hup|];
        eexists; (split; [by rewrite Htr, Htr1, Htr0, <- !app_assoc|]);
        rewrite (upsert_rhythm_app _ _ _ _ Hrhythm),
          (upsert_rhythm_app _ _ _ _ (upsert_rhythm_model_events _ Hevs));
        cbn [upsert_rhythm Nat.eqb]; rewrite ?upsert_rhythm_pace;
        rewrite !count_app, ?count_cons, H200, H1000, Hproc, Hp200, ?Hp1000,
          !(count_model_events _ _ eq_refl (λ _, eq_refl) Hevs),
          ?(count_pace is_upsert) by done;
        rewrite div_5_succ; simpl; split_and!; try done; lia.
  - by intros st0.
  - cbv zeta in Hend.
    destruct Hend as [(Hb & -> & Hresp)|[(Hb & -> & Hresp)|(_ & e & ?)]];
      [| |done].
    + simplify_eq. simpl. exists evs. rewrite Hb. simpl.
      split_and!; [done|done|done|lia].
    + rewrite Hreliable in Hresp. simplify_eq. simpl.
      exists (evs ++ [EvUpsert (batch (vars st1))]).
      rewrite Htr, app_assoc, !count_app, !count_cons, !count_nil, H200, H1000,
        (upsert_rhythm_app _ _ _ _ Hrhythm).
      simpl. destruct (batch (vars st1)); [done|]. simpl.
      split_and!; [done|lia|done|lia].
Qed.

(** *** The counters in general *)

(** X17: in every success response the three counters add up to the
    number of documents plus the number of upserts the store rejected
    during the run: a record whose flush is rejected is counted both as
    processed and as an error. *)
Theorem counters_exceed_documents_by_rejected_upserts
    (req : request) (questions : value num) (w w' : world num) (s : stats) :
  POST env req questions w = (Success s, w') →
  ∃ evs,
    trace w' = trace w ++ evs ∧
    totalProcessed s + errors s + skipped s
    = totalDocuments s + rejected_upserts env (trace w) evs.
Proof. apply stats_accounting. Qed.

(** *** An exception in a [catch] block *)

(** X25: an exception thrown by the [catch] block of an iteration ends the
    run.  It can only come from printing an id that is a nested [$oid]
    kept as it is.  The response is the error response carrying that
    exception; the records after the one that threw are not gone through,
    and there is no final flush: the last call of the run is the last call
    of that iteration, and the records still in the batch are not sent. *)
Theorem catch_exception_ends_the_run
    (req : request) (docs done rest : list (value num)) (doc : value num)
    (w : world num) (st1 st2 : state) e :
  client_created env = true →
  apply_limit (limit req) docs = done ++ doc :: rest →
  ran_through (iteration env (default 50%Z (batchSize req))) done
    {| the_world := w; vars := initial_locals |} st1 →
  iteration env (default 50%Z (batchSize req)) doc st1 = (Throw e, st2) →
  POST env req (VArr docs) w = (Failure 500 e, the_world st2) ∧
  errorCount (vars st2) = errorCount (vars st1) ∧
  ∃ _id oid,
    get doc "_id" = Ok _id ∧ get _id "$oid" = Ok oid ∧
    derive_docId doc = Ok (Some oid) ∧ ToString oid = Throw e.
Proof.
  intros Hclient Hdocs Hdone Hdoc. split_and!.
  - unfold POST, migrate, new_Pinecone, mbind, M_bind, mret, M_ret.
    rewrite Hclient, Hdocs.
    assert (Hloop : for_of (done ++ doc :: rest)
              (iteration env (default 50%Z (batchSize req)))
              {| the_world := w; vars := initial_locals |} = (Throw e, st2)).
    { clear Hdocs. induction Hdone as [st|x xs st st0 st1 Hx _ IH]; simpl.
      - unfold mbind, M_bind. by rewrite Hdoc.
      - unfold mbind, M_bind. rewrite Hx. by apply IH. }
    by rewrite Hloop.
  - by apply iteration_step in Hdoc as [[? _]|(e' & _ & _ & Herr & _)].
  - apply iteration_throws_only_on_unprintable_oid in Hdoc
      as (_id & oid & H_id & Hoid & _ & Hid & Hprint).
    by exists _id, oid.
Qed.

End RunFacts.

(** ** Which field wins *)

Section PrecedenceFacts.
Import JS Text Effects Embedder Migrate Props Shapes.
Context {num : Type} `{Numbers num} (env : Env num).

Lemma get_insert_ne (props : gmap string (value num)) (k k' : string) x :
  k ≠ k' → get (VObj (<[k := x]> props)) k' = get (VObj props) k'.
Proof. intros Hne. simpl. by rewrite lookup_insert_ne. Qed.

(** X18: the id fields in their order of priority.  A truthy nested
    [_id.$oid] is the id, as it is, whatever else the record holds; and
    whenever [_id] is truthy the field [id] plays no part: setting it to
    any value changes nothing. *)
Theorem id_fields_priority
    (props : gmap string (value num)) (_id : value num) :
  props !! "_id" = Some _id →
  truthy _id = true →
  (∀ x, derive_docId (VObj (<["id" := x]> props)) = derive_docId (VObj props)) ∧
  (∀ inner oid, _id = VObj inner → inner !! "$oid" = Some oid →
     truthy oid = true → derive_docId (VObj props) = Ok (Some oid)).
Proof.
  intros Hprops Htruthy. split.
  - intros x. unfold derive_docId, mbind, result_bind.
    rewrite (get_insert_ne props "id" "_id" x) by done.
    simpl. rewrite Hprops. simpl. rewrite Htruthy. simpl.
    destruct (typeof_object _id); simpl; [|done].
    destruct (get _id "$oid") as [oid|e]; simpl; [|done].
    by destruct (truthy oid).
  - intros inner oid -> Hoid Hto. unfold derive_docId, mbind, result_bind.
    simpl. rewrite Hprops. simpl. rewrite Hoid. simpl. by rewrite Hto.
Qed.


End PrecedenceFacts.

(** ** More on the query pipeline *)

Section MoreSearchFacts.
Import JS Text Effects Embedder Search Props Shapes.
Context {num : Type} `{Numbers num} (env : Env num).

Lemma query_missing_not_blank (s : string) :
  all_space s = false → query_missing (VStr s : value num) = Ok false.
Proof.
  intros Hs. unfold query_missing. simpl.
  destruct (String.eqb s "") eqn:Hempty.
  { apply String.eqb_eq in Hempty. by subst. }
  simpl. destruct (trim s) eqn:Htrim; [|done].
  apply trim_empty_iff in Htrim. congruence.
Qed.

(** X20: a successful search has run the model once, on the cleaned query
    text, a string of at least three characters once cleaned, and has then
    queried the store once, with the numbers the model returned and with
    the requested [topK], 10 when the request gives none. *)
Theorem successful_search_calls
    (req : request num) (w w' : world num) matches total searchQuery filters :
  POST env req w = (Matches matches total searchQuery filters, w') →
  ∃ s data before,
    query req = VStr s ∧
    3 ≤ String.length (cleanText s) ∧
    (before = trace w ∨ before = trace w ++ [EvLoadModel]) ∧
    embedder_output env before (cleanText s) = Some data ∧
    let call := EvQuery (VNum <$> data) (default 10%Z (topK req))
                  (filter_argument
                     (build_filter (subject req) (topic req) (course req))) in
    trace w' = before ++ [EvEmbed (cleanText s); call] ∧
    index_query env (before ++ [EvEmbed (cleanText s)]) (VNum <$> data)
      (default 10%Z (topK req))
      (filter_argument (build_filter (subject req) (topic req) (course req)))
    = Some matches.
Proof.
  unfold POST, search, new_Pinecone, index_query_call, emit, pure, throw,
    mbind, M_bind, mret, M_ret.
  destruct (query_missing (query req)) as [[]|e]; [done| |done].
  destruct (getEmbedding env (query req) w) as [[emb|e] w1] eqn:Hemb; [|done].
  apply getEmbedding_exact in Hemb as [[_ [?|?]]|(s & Hq & Hlen & Hcases)];
    [done|done|].
  destruct (client_created env); [|done]. simpl.
  destruct (index_query env (trace w1) emb (default 10%Z (topK req))
              (filter_argument
                 (build_filter (subject req) (topic req) (course req))))
    as [ms|] eqn:Hquery; [|done].
  intros ?. simplify_eq. simpl.
  destruct Hcases as
    [(_ & _ & Htr & Hr)|[(_ & _ & _ & Htr & Hr)|(_ & _ & _ & _ & Hr)]]; [..|done].
  - destruct (embedder_output env (trace w) (cleanText s)) as [data|] eqn:Hout;
      [|done]. simplify_eq.
    exists s, data, (trace w). rewrite Htr in *. rewrite <- app_assoc.
    split_and!; try done. by left.
  - destruct (embedder_output env (trace w ++ [EvLoadModel]) (cleanText s))
      as [data|] eqn:Hout; [|done]. simplify_eq.
    exists s, data, (trace w ++ [EvLoadModel]).
    rewrite Htr in *. rewrite <- !app_assoc in *. simpl in *.
    split_and!; try done. by right.
Qed.

(** X21: a query that is not blank but cannot be embedded is answered
    with the error response, status 500, and not with the 400 response,
    and nothing is called: a string that cleans to fewer than three
    characters, such as a bare tag, or a truthy value that is not a
    string. *)
Theorem unembeddable_query_is_a_server_error
    (req : request num) (w : world num) :
  (∀ s, query req = VStr s → all_space s = false →
        String.length (cleanText s) < 3 →
        POST env req w = (Failure 500 TextTooShort, w)) ∧
  (truthy (query req) = true → is_string (query req) = false →
   POST env req w = (Failure 500 TypeError, w)).
Proof.
  unfold POST, search, pure, throw, mbind, M_bind. split.
  - intros s -> Hs Hshort. rewrite (query_missing_not_blank s Hs). simpl.
    assert (Hlt : (String.length (cleanText s) <? 3) = true) by by apply Nat.ltb_lt.
    by rewrite Hlt, orb_true_r.
  - intros Htruthy Hstr. unfold query_missing. rewrite Htruthy. simpl.
    by destruct (query req).
Qed.

(** X22: a search that does not succeed has queried the store exactly
    when the response reports the store's own failure: the "Query is
    required" response and the failures of the query text, of the model
    and of the client all come before the store is queried. *)
Theorem failed_search_and_the_store
    (req : request num) (w w' : world num) (resp : response num) :
  POST env req w = (resp, w') →
  (∀ matches total searchQuery filters,
     resp ≠ Matches matches total searchQuery filters) →
  ∃ evs, trace w' = trace w ++ evs ∧
    count is_query evs = (if store_failure resp then 1 else 0).
Proof.
  unfold POST, search, new_Pinecone, index_query_call, emit, pure, throw,
    mbind, M_bind, mret, M_ret.
  assert (Hnone : ∀ resp' : response num, store_failure resp' = false →
    ∃ evs : list (event num), trace w = trace w ++ evs ∧
      count is_query evs = (if store_failure resp' then 1 else 0)).
  { intros resp' ->. exists []. by rewrite app_nil_r. }
  destruct (query_missing (query req)) as [[]|e0] eqn:Hmiss.
  { intros ? _. simplify_eq. by apply Hnone. }
  2:{ intros ? _. simplify_eq. apply Hnone.
      unfold query_missing in Hmiss. repeat case_match; by simplify_eq. }
  destruct (getEmbedding env (query req) w) as [[emb|e0] w1] eqn:Hemb.
  2:{ intros ? _. simplify_eq.
      pose proof Hemb as (evs & Htr & _ & _ & _ & Hq & _)%getEmbedding_loads.
      exists evs. split; [done|]. rewrite Hq.
      enough (e0 ≠ StoreFailure) by by destruct e0.
      apply getEmbedding_exact in Hemb as [[_ [?|?]]|(s & _ & _ & Hcases)];
        [by simplify_eq..|].
      destruct Hcases as
        [(_ & _ & _ & Hr)|[(_ & _ & _ & _ & Hr)|(_ & _ & _ & _ & Hr)]];
        repeat case_match; by simplify_eq. }
  apply getEmbedding_loads in Hemb as (evs & Htr & _ & _ & _ & Hq & _).
  destruct (client_created env).
  2:{ intros ? _. simplify_eq. exists evs. by rewrite Hq. }
  simpl.
  destruct (index_query env (trace w1) emb (default 10%Z (topK req))
              (filter_argument
                 (build_filter (subject req) (topic req) (course req)))).
  { intros ? Hfailed. simplify_eq. by destruct (Hfailed _ _ _ _ eq_refl). }
  intros ? _. simplify_eq. simpl.
  eexists. rewrite Htr, <- app_assoc. split; [done|].
  by rewrite count_app, Hq, count_cons.
Qed.

End MoreSearchFacts.

(** ** Reading the source *)

Section SourceFacts.
Import JS Effects Source.
Context {num : Type} `{Numbers num}.

Lemma first_readable_skips (fs : Files num) (before after : list string) p :
  (∀ q, q ∈ before → readFileSync fs q = None) →
  first_readable fs (before ++ p :: after)
  = match readFileSync fs p with
    | Some jsonData => Some jsonData
    | None => first_readable fs after
    end.
Proof.
  induction before as [|q before IH]; intros Hnone; simpl; [done|].
  rewrite (Hnone q) by by left. apply IH. intros q' Hin. apply Hnone. by right.
Qed.

(** X23: when the request names a file, that file alone decides: the
    conventional locations are not consulted, neither for the data nor as
    a fallback when the named file cannot be read. *)
Theorem named_file_alone_decides (fs fs' : Files num) (p : string) :
  p ≠ "" →
  cwd fs' = cwd fs → path_join fs' = path_join fs → JSON_parse fs' = JSON_parse fs →
  readFileSync fs' (path_join fs [cwd fs; p])
    = readFileSync fs (path_join fs [cwd fs; p]) →
  load_questions fs' (Some p) = load_questions fs (Some p) ∧
  (readFileSync fs (path_join fs [cwd fs; p]) = None →
   load_questions fs (Some p) = inl ReadError).
Proof.
  intros Hp Hcwd Hjoin Hparse Hread.
  apply String.eqb_neq in Hp.
  unfold load_questions, path_given, read_given, parse. rewrite Hp. simpl.
  rewrite Hcwd, Hjoin, Hread, Hparse. split; [done|]. by intros ->.
Qed.

(** X24: without a named file, the conventional locations are tried in
    order and the first that can be read ends the search, the later ones
    not being read.  Its content is parsed, unless it is empty: an empty
    file is reported as no file found, even when a later location holds
    data.  When none can be read, no file is found. *)
Theorem first_readable_location_decides (fs : Files num) :
  (∀ before p after jsonData,
     possiblePaths fs = before ++ p :: after →
     (∀ q, q ∈ before → readFileSync fs q = None) →
     readFileSync fs p = Some jsonData →
     load_questions fs None
     = if String.eqb jsonData "" then inl NoJSONFileFound
       else parse fs jsonData) ∧
  ((∀ q, q ∈ possiblePaths fs → readFileSync fs q = None) →
   load_questions fs None = inl NoJSONFileFound).
Proof.
  unfold load_questions, read_conventional. simpl path_given. cbv iota.
  split.
  - intros before p after jsonData -> Hnone Hread.
    by rewrite (first_readable_skips fs before after p Hnone), Hread.
  - intros Hnone. unfold possiblePaths in *. simpl.
    rewrite !Hnone; [done|..]; rewrite !elem_of_cons; auto.
Qed.

(** A source that cannot be loaded stops the route before anything is
    called, and a source that loads is handed to the run as parsed. *)
Lemma unreadable_source_calls_nothing
    (env : Env num) (fs : Files num) (jsonFilePath : option string)
    (req : Migrate.request) (w : world num) :
  (∀ e, load_questions fs jsonFilePath = inl e →
        Source.POST env fs jsonFilePath req w = (inl e, w)) ∧
  (∀ questions, load_questions fs jsonFilePath = inr questions →
        Source.POST env fs jsonFilePath req w
        = (inr (fst (Migrate.POST env req questions w)),
           snd (Migrate.POST env req questions w))).
Proof.
  unfold Source.POST. split.
  - by intros e ->.
  - intros questions ->. by destruct (Migrate.POST env req questions w).
Qed.

End SourceFacts.

(** ** Runs on concrete documents *)

Module Runs.
Import JS Text Effects Embedder Props Scenarios.

Example cleanText_example :
  cleanText "  <b>What</b>   is 2+2? <br/> " = "What is 2+2?".
Proof. reflexivity. Qed.

Example remove_tags_unclosed : remove_tags "a<b<c>d>e<f" = "ad>e<f".
Proof. reflexivity. Qed.

(** The end-to-end run of two records, the second with a text below the
    length floor: one processed, one error, one upsert of one record. *)
Example two_records_one_too_short :
  Migrate.POST reliable
    {| Migrate.batchSize := Some 10%Z; Migrate.limit := Migrate.LimitUndefined |}
    (VArr [doc_1; doc_short]) fresh
  = (Migrate.Success
       {| Migrate.totalDocuments := 2; Migrate.totalProcessed := 1;
          Migrate.errors := 1; Migrate.skipped := 0;
          Migrate.finalBatchSize := 1 |},
     {| embedder_loaded := true;
        trace := [EvLoadModel; EvEmbed "What is 2+2?";
                  EvUpsert [record_of "1" "What is 2+2?"]] |}).
Proof. vm_compute. reflexivity. Qed.

(** C1: with a batch size of 1 and a store that rejects the first upsert,
    the single record is counted as processed and then, when the flush
    throws inside the same [try] block, as an error too; the final flush
    succeeds and the success response reports 1 processed and 1 error for
    1 document. *)
Theorem flush_failure_counts_record_twice :
  Migrate.POST first_upsert_rejected batches_of_one (VArr [doc_1]) fresh
  = (Migrate.Success
       {| Migrate.totalDocuments := 1; Migrate.totalProcessed := 1;
          Migrate.errors := 1; Migrate.skipped := 0;
          Migrate.finalBatchSize := 1 |},
     {| embedder_loaded := true;
        trace := [EvLoadModel; EvEmbed "What is 2+2?";
                  EvUpsert [record_of "1" "What is 2+2?"];
                  EvUpsert [record_of "1" "What is 2+2?"]] |}) ∧
  1 + 1 + 0 ≠ 1.
Proof. split; [vm_compute; reflexivity|lia]. Qed.

(** C2: a record with neither [_id] nor [id] is not embedded, but it is
    counted as an error and not as skipped: the argument of the warning,
    [JSON.stringify(undefined).substring(0, 100)], throws before
    [skippedCount++] is reached. *)
Theorem record_without_id_counted_as_error :
  Migrate.POST reliable defaults (VArr [doc_without_id]) fresh
  = (Migrate.Success
       {| Migrate.totalDocuments := 1; Migrate.totalProcessed := 0;
          Migrate.errors := 1; Migrate.skipped := 0;
          Migrate.finalBatchSize := 0 |},
     fresh).
Proof. vm_compute. reflexivity. Qed.

(** C3: with a batch size of 1 and a store that rejects the first upsert,
    the run does not end at the failed flush, which is inside the [try]
    block of the iteration.  The next record is embedded, the kept batch is
    sent again together with the new record, and the response is the
    success response. *)
Theorem failed_flush_does_not_end_the_run :
  Migrate.POST first_upsert_rejected batches_of_one (VArr [doc_1; doc_3]) fresh
  = (Migrate.Success
       {| Migrate.totalDocuments := 2; Migrate.totalProcessed := 2;
          Migrate.errors := 1; Migrate.skipped := 0;
          Migrate.finalBatchSize := 0 |},
     {| embedder_loaded := true;
        trace := [EvLoadModel;
                  EvEmbed "What is 2+2?";
                  EvUpsert [record_of "1" "What is 2+2?"];
                  EvEmbed "What is 3+3?";
                  EvUpsert [record_of "1" "What is 2+2?";
                            record_of "3" "What is 3+3?"];
                  EvSleep 1000] |}).
Proof. vm_compute. reflexivity. Qed.

(** C4: a record whose embedding fails can end the run.  The first record
    has a one-character text and, for its id, a nested [$oid] that cannot
    be converted to a string.  [getEmbedding] throws the text-too-short
    error; the [catch] block then throws in turn, when its log line prints
    the id, before [errorCount++].  That exception leaves the loop: the
    response is the error response, no error has been counted, and the
    record that follows is never embedded.  With an id that prints, the
    same text is counted as an error and the record that follows is
    processed. *)
Theorem embedding_failure_can_end_the_run :
  getEmbedding reliable (VStr "x") fresh = (Throw TextTooShort, fresh) ∧
  Migrate.iteration reliable 50 doc_unprintable_id start
  = (Throw TypeError, start) ∧
  Migrate.POST reliable defaults (VArr [doc_unprintable_id; doc_1]) fresh
  = (Migrate.Failure 500 TypeError, fresh) ∧
  Migrate.POST reliable defaults (VArr [doc_short; doc_1]) fresh
  = (Migrate.Success
       {| Migrate.totalDocuments := 2; Migrate.totalProcessed := 1;
          Migrate.errors := 1; Migrate.skipped := 0;
          Migrate.finalBatchSize := 1 |},
     {| embedder_loaded := true;
        trace := [EvLoadModel; EvEmbed "What is 2+2?";
                  EvUpsert [record_of "1" "What is 2+2?"]] |}).
Proof. split_and!; vm_compute; reflexivity. Qed.

(** C8, as stated, fails: without filters the store is queried with
    [undefined] while the response carries the empty filter object. *)
Lemma response_filter_differs_from_store_filter :
  Search.POST reliable query_without_filters fresh
  = (Search.Matches [] 0 (VStr "hello world") (VObj ∅),
     {| embedder_loaded := true;
        trace := [EvLoadModel; EvEmbed "hello world";
                  EvQuery [VNum 1%Z; VNum 0%Z] 10 VUndefined] |}) ∧
  (VObj ∅ : value Z) ≠ VUndefined.
Proof. split; [vm_compute; reflexivity|done]. Qed.

(** C9, as stated, fails: a record whose [_id] is an empty array is
    upserted with the empty string as its id. *)
Lemma empty_array_id_gives_empty_id :
  Migrate.POST reliable defaults (VArr [doc_array_id]) fresh
  = (Migrate.Success
       {| Migrate.totalDocuments := 1; Migrate.totalProcessed := 1;
          Migrate.errors := 0; Migrate.skipped := 0;
          Migrate.finalBatchSize := 1 |},
     {| embedder_loaded := true;
        trace := [EvLoadModel; EvEmbed "What is 2+2?";
                  EvUpsert [record_of "" "What is 2+2?"]] |}) ∧
  id (record_of "" "What is 2+2?") = VStr "".
Proof. split; [vm_compute; reflexivity|done]. Qed.

(** *** The general statements at concrete inputs *)

(** The record with the one-character question and the id ["2"]: its
    embedding fails with the text-too-short error, the id prints, the
    iteration counts an error, and the loop goes on with the record after
    it. *)
Example embedding_failure_with_a_printable_id :
  ∃ st1,
    Migrate.iteration reliable 50 doc_short start = (Ok tt, st1) ∧
    Migrate.the_world st1 = fresh ∧
    Migrate.errorCount (Migrate.vars st1) = 1 ∧
    Migrate.batch (Migrate.vars st1) = [] ∧
    Migrate.processedCount (Migrate.vars st1) = 0 ∧
    Migrate.skippedCount (Migrate.vars st1) = 0 ∧
    for_of (doc_short :: [doc_1]) (Migrate.iteration reliable 50) start
    = for_of [doc_1] (Migrate.iteration reliable 50) st1.
Proof.
  apply (embedding_failure_when_id_prints reliable 50 doc_short [doc_1]
           start (VStr "2") (VStr "x") TextTooShort fresh "2");
    vm_compute; reflexivity.
Qed.

Example flush_failure_final_and_inside_loop :
  Migrate.POST every_upsert_rejected defaults (VArr [doc_1]) fresh
  = (Migrate.Failure 500 StoreFailure,
     emit (EvUpsert [record_of "1" "What is 2+2?"])
       (after_embedding "What is 2+2?")) ∧
  ∃ st',
    Migrate.iteration first_upsert_rejected 1 doc_1 start = (Ok tt, st') ∧
    Migrate.batch (Migrate.vars st') = [record_of "1" "What is 2+2?"] ∧
    trace (Migrate.the_world st')
      = [EvLoadModel; EvEmbed "What is 2+2?";
         EvUpsert [record_of "1" "What is 2+2?"]] ∧
    for_of (doc_1 :: [doc_3]) (Migrate.iteration first_upsert_rejected 1) start
    = for_of [doc_3] (Migrate.iteration first_upsert_rejected 1) st'.
Proof.
  split.
  - apply (proj1 (flush_failure_final_or_inside_loop every_upsert_rejected
                    defaults [doc_1] fresh)
             {| Migrate.the_world := after_embedding "What is 2+2?";
                Migrate.vars :=
                  {| Migrate.batch := [record_of "1" "What is 2+2?"];
                     Migrate.processedCount := 1;
                     Migrate.errorCount := 0;
                     Migrate.skippedCount := 0 |} |});
      [reflexivity|vm_compute; reflexivity|discriminate|reflexivity].
  - apply (proj2 (flush_failure_final_or_inside_loop first_upsert_rejected
                    defaults [] fresh)
             1%Z doc_1 [doc_3] start (VStr "1") (VStr "What is 2+2?")
             [VNum 1%Z; VNum 0%Z] (record_of "1" "What is 2+2?")
             (after_embedding "What is 2+2?") "1");
      try (vm_compute; reflexivity).
    simpl. lia.
Qed.

Lemma blank_query_witness :
  Search.POST reliable query_blank fresh = (Search.QueryRequired, fresh).
Proof.
  apply blank_query_rejected_before_any_call.
  right. right. exists "   ". split; reflexivity.
Defined.

Lemma store_filter_witness :
  let filter := Search.build_filter (VStr "Math") VUndefined VUndefined in
  filter = {[ "subject" := VStr "Math" ]} ∧
  Search.filter_argument filter = VObj filter ∧
  ∃ evs, trace (snd (Search.POST reliable query_math fresh)) = trace fresh ++ evs ∧
    ∀ v k f, EvQuery v k f ∈ evs → f = Search.filter_argument filter.
Proof.
  destruct (store_filter_terms reliable query_math fresh)
    as (_ & _ & _ & Harg & Hevs).
  split_and!; [vm_compute; reflexivity|exact Harg|exact Hevs].
Defined.

Lemma getEmbedding_witness :
  ∃ w1,
    initEmbedder reliable fresh = (Ok tt, w1) ∧
    getEmbedding reliable (VStr " What  is <i>2+2</i>? ") fresh
      = run_embedder reliable "What is 2+2?" w1 ∧
    trace (snd (getEmbedding reliable (VStr " What  is <i>2+2</i>? ") fresh))
      = trace w1 ++ [EvEmbed "What is 2+2?"] ∧
    fst (getEmbedding reliable (VStr " What  is <i>2+2</i>? ") fresh)
      = Ok [VNum 1%Z; VNum 0%Z].
Proof.
  apply (proj2 (proj2 (getEmbedding_too_short_iff reliable
                         " What  is <i>2+2</i>? " fresh))).
  - intros [Hempty|Hshort]; [discriminate Hempty|].
    vm_compute in Hshort. lia.
  - right. reflexivity.
Defined.

Lemma success_response_witness :
  let filter := Search.build_filter (VStr "Math") VUndefined VUndefined in
  ∃ before v k,
    [EvLoadModel; EvEmbed "hello world";
     EvQuery [VNum 1%Z; VNum 0%Z] 10 (VObj {[ "subject" := VStr "Math" ]})]
      = before ++ [EvQuery v k (Search.filter_argument filter)] ∧
    index_query reliable before v k (Search.filter_argument filter) = Some [] ∧
    0 = length ([] : list (value Z)) ∧
    VStr "hello world" = Search.query query_math ∧
    VObj {[ "subject" := VStr "Math" ]} = VObj filter ∧
    Search.filter_argument filter
      = (if decide (filter = ∅) then VUndefined
         else VObj {[ "subject" := VStr "Math" ]}).
Proof.
  apply (success_response_contents reliable query_math fresh
           {| embedder_loaded := true;
              trace := [EvLoadModel; EvEmbed "hello world";
                        EvQuery [VNum 1%Z; VNum 0%Z] 10
                          (VObj {[ "subject" := VStr "Math" ]})] |}
           [] 0 (VStr "hello world") (VObj {[ "subject" := VStr "Math" ]})).
  vm_compute. reflexivity.
Defined.

(** Three records: a plain id, a nested [$oid] and an empty array.  The
    ids are ["1"], ["65f0"] and the empty string, each extracted from its
    record; the third record has one of the odd shapes. *)
Lemma record_ids_witness :
  (∀ batchSize r st',
     for_of [doc_1; doc_oid; doc_array_id]
       (Migrate.iteration reliable batchSize) start = (r, st') →
     Forall (well_identified [doc_1; doc_oid; doc_array_id])
       (Migrate.batch (Migrate.vars st'))) ∧
  ∃ evs,
    trace (snd (Migrate.POST reliable defaults
                  (VArr [doc_1; doc_oid; doc_array_id]) fresh))
      = trace fresh ++ evs ∧
    ∀ recs v, EvUpsert recs ∈ evs → v ∈ recs →
      well_identified [doc_1; doc_oid; doc_array_id] v.
Proof.
  apply (record_ids_derived_and_nonempty_unless_odd reliable defaults
           [doc_1; doc_oid; doc_array_id] fresh).
Defined.

Example odd_id_shapes :
  odd_id_shape doc_1 = false ∧ odd_id_shape doc_oid = false ∧
  odd_id_shape doc_array_id = true ∧
  odd_id_shape (VObj {[ "_id" := VArr [VNum 1%Z] ]} : value Z) = false ∧
  odd_id_shape (VObj {[ "_id" := VStr "abc"; "id" := VArr [] ]} : value Z) = false ∧
  odd_id_shape (VObj {[ "_id" := VObj {[ "$oid" := VNum 5%Z ]} ]} : value Z) = true.
Proof. split_and!; vm_compute; reflexivity. Qed.

(** The request [{ limit: 0 }] on two records: both are processed. *)
Lemma falsy_limit_witness :
  let s := {| Migrate.totalDocuments := 2; Migrate.totalProcessed := 2;
              Migrate.errors := 0; Migrate.skipped := 0;
              Migrate.finalBatchSize := 2 |} in
  let w' := snd (Migrate.POST reliable limit_zero (VArr [doc_1; doc_3]) fresh) in
  Migrate.totalDocuments s = length [doc_1; doc_3] ∧
  (∃ st',
     ran_through (Migrate.iteration reliable 50) [doc_1; doc_3] start st' ∧
     Migrate.totalProcessed s = Migrate.processedCount (Migrate.vars st') ∧
     Migrate.errors s = Migrate.errorCount (Migrate.vars st') ∧
     Migrate.skipped s = Migrate.skippedCount (Migrate.vars st')) ∧
  ∃ evs,
    trace w' = trace fresh ++ evs ∧
    Migrate.totalProcessed s + Migrate.errors s + Migrate.skipped s
    = length [doc_1; doc_3] + rejected_upserts reliable (trace fresh) evs.
Proof.
  apply (proj2 (proj2 (falsy_limit_processes_every_record reliable limit_zero
                         [doc_1; doc_3] fresh (or_introl eq_refl)))).
  vm_compute. reflexivity.
Defined.

End Runs.

(** ** Further runs *)

Module MoreRuns.
Import JS Text Effects Embedder Props Scenarios Fixtures Shapes.

Lemma short_raw_text_witness :
  String.length (cleanText "hi") ≤ String.length "hi" ∧
  getEmbedding reliable (VStr "hi") fresh = (Throw TextTooShort, fresh).
Proof. apply (short_raw_text_is_rejected reliable "hi" fresh). simpl. lia. Defined.

Lemma loaded_model_witness :
  let w := after_embedding "What is 2+2?" in
  (embedder_loaded (snd (Migrate.POST reliable defaults (VArr [doc_3]) w)) = true ∧
   ∃ evs, trace (snd (Migrate.POST reliable defaults (VArr [doc_3]) w))
            = trace w ++ evs ∧
          count is_load evs = 0) ∧
  (embedder_loaded (snd (Search.POST reliable query_math w)) = true ∧
   ∃ evs, trace (snd (Search.POST reliable query_math w)) = trace w ++ evs ∧
          count is_load evs = 0).
Proof.
  apply (loaded_model_is_not_reloaded reliable defaults (VArr [doc_3]) query_math
           (after_embedding "What is 2+2?")).
  reflexivity.
Defined.

Lemma model_loaded_once_witness :
  ∃ evs,
    trace (snd (Migrate.POST reliable defaults (VArr [doc_1; doc_3]) fresh))
      = trace fresh ++ evs ∧
    count is_load evs ≤ 1.
Proof.
  apply (model_loaded_at_most_once reliable defaults (VArr [doc_1; doc_3]) fresh).
  intros tr. reflexivity.
Defined.

Lemma unprocessed_record_witness :
  let st' := {| Migrate.the_world := fresh;
                Migrate.vars := Migrate.incr_error Migrate.initial_locals |} in
  (Migrate.batch (Migrate.vars st') = Migrate.batch (Migrate.vars start) ∧
   Migrate.errorCount (Migrate.vars st') + Migrate.skippedCount (Migrate.vars st')
     = S (Migrate.errorCount (Migrate.vars start)
          + Migrate.skippedCount (Migrate.vars start)) ∧
   ∃ evs, trace (Migrate.the_world st') = trace (Migrate.the_world start) ++ evs ∧
     count Shapes.is_upsert evs = 0 ∧ count is_query evs = 0 ∧
     ∀ ms, count (is_sleep ms) evs = 0) ∧
  (Migrate.batch (Migrate.vars start) = Migrate.batch (Migrate.vars start) ∧
   (Migrate.errorCount (Migrate.vars start) = Migrate.errorCount (Migrate.vars start) ∧
    Migrate.skippedCount (Migrate.vars start)
      = Migrate.skippedCount (Migrate.vars start) ∧
    ToString (or_else (Migrate.docId_in_catch doc_unprintable_id)
                (VStr "[unknown]")) = Throw TypeError) ∧
   ∃ evs, trace (Migrate.the_world start) = trace (Migrate.the_world start) ++ evs ∧
     count Shapes.is_upsert evs = 0 ∧ count is_query evs = 0 ∧
     ∀ ms, count (is_sleep ms) evs = 0).
Proof.
  split.
  - apply (unprocessed_record_touches_no_store reliable 50 doc_short start (Ok tt)
             {| Migrate.the_world := fresh;
                Migrate.vars := Migrate.incr_error Migrate.initial_locals |});
      vm_compute; reflexivity.
  - apply (unprocessed_record_touches_no_store reliable 50 doc_unprintable_id
             start (Throw TypeError) start);
      vm_compute; reflexivity.
Defined.




(** Two records, batches of one, and a store that rejects the first
    upsert: both records are accepted, with the second upsert. *)
Lemma processed_records_witness :
  let w' := snd (Migrate.POST first_upsert_rejected batches_of_one
                   (VArr [doc_1; doc_3]) fresh) in
  ∃ evs kept,
    trace w' = trace fresh ++ evs ∧
    kept `sublist_of` [doc_1; doc_3] ∧
    Forall2 built_from kept (accepted first_upsert_rejected (trace fresh) evs) ∧
    length (accepted first_upsert_rejected (trace fresh) evs) = 2.
Proof.
  apply (processed_records_are_accepted_once first_upsert_rejected
           batches_of_one [doc_1; doc_3] fresh
           (snd (Migrate.POST first_upsert_rejected batches_of_one
                   (VArr [doc_1; doc_3]) fresh))
           {| Migrate.totalDocuments := 2; Migrate.totalProcessed := 2;
              Migrate.errors := 1; Migrate.skipped := 0;
              Migrate.finalBatchSize := 0 |}).
  vm_compute. reflexivity.
Defined.

(** Five records in batches of two: two upserts inside the loop, each
    followed by a pause of 1000 ms, one pause of 200 ms after the fifth
    record, and the final flush of one record as the last call. *)
Lemma delays_witness :
  let docs := [doc_1; doc_3; doc_1; doc_3; doc_1] in
  let w' := snd (Migrate.POST reliable batches_of_two (VArr docs) fresh) in
  ∃ evs, trace w' = trace fresh ++ evs ∧
    count (is_sleep 200) evs = 5 / 5 ∧
    upsert_rhythm false evs = Some true ∧
    count (is_sleep 1000) evs + 1 = count Shapes.is_upsert evs.
Proof.
  apply (delays_follow_the_upserts reliable batches_of_two
           (VArr [doc_1; doc_3; doc_1; doc_3; doc_1]) fresh
           (snd (Migrate.POST reliable batches_of_two
                   (VArr [doc_1; doc_3; doc_1; doc_3; doc_1]) fresh))
           {| Migrate.totalDocuments := 5; Migrate.totalProcessed := 5;
              Migrate.errors := 0; Migrate.skipped := 0;
              Migrate.finalBatchSize := 1 |}).
  - intros tr recs. reflexivity.
  - vm_compute. reflexivity.
Defined.

Lemma counters_witness :
  let w' := emit (EvUpsert [record_of "1" "What is 2+2?"])
              (emit (EvUpsert [record_of "1" "What is 2+2?"])
                 (after_embedding "What is 2+2?")) in
  ∃ evs,
    trace w' = trace fresh ++ evs ∧
    1 + 1 + 0 = 1 + rejected_upserts first_upsert_rejected (trace fresh) evs.
Proof.
  apply (counters_exceed_documents_by_rejected_upserts first_upsert_rejected
           batches_of_one (VArr [doc_1]) fresh
           (emit (EvUpsert [record_of "1" "What is 2+2?"])
              (emit (EvUpsert [record_of "1" "What is 2+2?"])
                 (after_embedding "What is 2+2?")))
           {| Migrate.totalDocuments := 1; Migrate.totalProcessed := 1;
              Migrate.errors := 1; Migrate.skipped := 0;
              Migrate.finalBatchSize := 1 |}).
  vm_compute. reflexivity.
Defined.

Lemma nothing_to_ingest_witness :
  Migrate.POST reliable defaults (VObj ∅) fresh
  = (Migrate.Failure 500 NotAnArray, fresh) ∧
  Migrate.POST reliable defaults (VArr []) fresh
  = (Migrate.Success {| Migrate.totalDocuments := 0; Migrate.totalProcessed := 0;
                        Migrate.errors := 0; Migrate.skipped := 0;
                        Migrate.finalBatchSize := 0 |}, fresh).
Proof.
  split.
  - apply (proj1 (nothing_to_ingest_calls_nothing reliable defaults (VObj ∅) fresh)).
    intros docs Heq. discriminate Heq.
  - apply (proj2 (proj2 (nothing_to_ingest_calls_nothing reliable defaults
                           (VArr []) fresh)) []); reflexivity.
Defined.

Lemma id_priority_witness :
  let props : gmap string (value Z) :=
    {[ "_id" := VObj {[ "$oid" := VStr "65f0" ]};
       "cleanedQuestion" := VStr "What is 2+2?" ]} in
  (∀ x, Migrate.derive_docId (VObj (<["id" := x]> props))
        = Migrate.derive_docId (VObj props)) ∧
  Migrate.derive_docId (VObj props) = Ok (Some (VStr "65f0")).
Proof.
  pose proof (id_fields_priority
                ({[ "_id" := VObj {[ "$oid" := VStr "65f0" ]};
                    "cleanedQuestion" := VStr "What is 2+2?" ]}
                 : gmap string (value Z))
                (VObj {[ "$oid" := VStr "65f0" ]})
                eq_refl eq_refl) as [Hid Hoid].
  split; [exact Hid|].
  exact (Hoid {[ "$oid" := VStr "65f0" ]} (VStr "65f0") eq_refl eq_refl eq_refl).
Defined.


Lemma successful_search_witness :
  let filter := VObj {[ "subject" := VStr "Math" ]} : value Z in
  let w' := emit (EvQuery [VNum 1%Z; VNum 0%Z] 10 filter)
              (after_embedding "hello world") in
  ∃ s data before,
    Search.query query_math = VStr s ∧
    3 ≤ String.length (cleanText s) ∧
    (before = trace fresh ∨ before = trace fresh ++ [EvLoadModel]) ∧
    embedder_output reliable before (cleanText s) = Some data ∧
    trace w'
    = before ++ [EvEmbed (cleanText s);
                 EvQuery (VNum <$> data) 10
                   (Search.filter_argument
                      (Search.build_filter (VStr "Math") VUndefined VUndefined))] ∧
    index_query reliable (before ++ [EvEmbed (cleanText s)]) (VNum <$> data) 10
      (Search.filter_argument
         (Search.build_filter (VStr "Math") VUndefined VUndefined))
    = Some [].
Proof.
  apply (successful_search_calls reliable query_math fresh
           (emit (EvQuery [VNum 1%Z; VNum 0%Z] 10
                    (VObj {[ "subject" := VStr "Math" ]}))
              (after_embedding "hello world"))
           [] 0 (VStr "hello world") (VObj {[ "subject" := VStr "Math" ]})).
  vm_compute. reflexivity.
Defined.

Lemma unembeddable_query_witness :
  Search.POST reliable query_tag fresh = (Search.Failure 500 TextTooShort, fresh) ∧
  Search.POST reliable query_number fresh = (Search.Failure 500 TypeError, fresh).
Proof.
  split.
  - apply (proj1 (unembeddable_query_is_a_server_error reliable query_tag fresh)
             "<br>"); [reflexivity|reflexivity|simpl; lia].
  - apply (proj2 (unembeddable_query_is_a_server_error reliable query_number
                    fresh)); reflexivity.
Defined.

Lemma failed_search_witness :
  (∃ evs,
     trace (snd (Search.POST every_query_rejected query_math fresh))
       = trace fresh ++ evs ∧
     count is_query evs = 1) ∧
  (∃ evs,
     trace (snd (Search.POST reliable query_blank fresh)) = trace fresh ++ evs ∧
     count is_query evs = 0).
Proof.
  split.
  - apply (failed_search_and_the_store every_query_rejected query_math fresh
             (snd (Search.POST every_query_rejected query_math fresh))
             (Search.Failure 500 StoreFailure));
      [vm_compute; reflexivity|discriminate].
  - apply (failed_search_and_the_store reliable query_blank fresh
             (snd (Search.POST reliable query_blank fresh))
             Search.QueryRequired);
      [vm_compute; reflexivity|discriminate].
Defined.

Lemma named_file_witness :
  let fs := disk [("/app/given.json", "[]"); ("/app/questions.json", "{}")] in
  let fs' := disk [("/app/given.json", "[]")] in
  Source.load_questions fs' (Some "given.json")
  = Source.load_questions fs (Some "given.json") ∧
  (Source.readFileSync fs (Source.path_join fs [Source.cwd fs; "given.json"]) = None →
   Source.load_questions fs (Some "given.json") = inl Source.ReadError).
Proof.
  apply (named_file_alone_decides
           (disk [("/app/given.json", "[]"); ("/app/questions.json", "{}")])
           (disk [("/app/given.json", "[]")]) "given.json");
    [discriminate|reflexivity..].
Defined.

Lemma empty_first_file_witness :
  Source.load_questions
    (disk [("/app/data/questions.json", "");
           ("/app/public/data/questions.json", "[]")]) None
  = inl Source.NoJSONFileFound ∧
  Source.load_questions (disk [("/app/public/data/questions.json", "[]")]) None
  = inr (VArr []) ∧
  Source.load_questions (disk [("/app/given.json", "[]")]) None
  = inl Source.NoJSONFileFound.
Proof.
  split_and!.
  - apply (proj1 (first_readable_location_decides
                    (disk [("/app/data/questions.json", "");
                           ("/app/public/data/questions.json", "[]")]))
             ["/app/questions.json"] "/app/data/questions.json"
             ["/app/public/data/questions.json"] "").
    + reflexivity.
    + intros q ->%list_elem_of_singleton. reflexivity.
    + reflexivity.
  - apply (proj1 (first_readable_location_decides
                    (disk [("/app/public/data/questions.json", "[]")]))
             ["/app/questions.json"; "/app/data/questions.json"]
             "/app/public/data/questions.json" [] "[]").
    + reflexivity.
    + intros q [->| ->%list_elem_of_singleton]%elem_of_cons; reflexivity.
    + reflexivity.
  - apply (proj2 (first_readable_location_decides
                    (disk [("/app/given.json", "[]")]))).
    intros q Hq. vm_compute in Hq.
    repeat (apply elem_of_cons in Hq as [-> |Hq]; [reflexivity|]).
    by apply elem_of_nil in Hq.
Defined.

(** The record with the unprintable id after a first record that is
    processed: the run ends with the error response after the embedding
    of the first record, which stays in the batch and is never sent. *)
Lemma catch_exception_witness :
  Migrate.POST reliable defaults (VArr [doc_1; doc_unprintable_id; doc_3]) fresh
  = (Migrate.Failure 500 TypeError, Migrate.the_world after_doc_1) ∧
  Migrate.errorCount (Migrate.vars after_doc_1)
  = Migrate.errorCount (Migrate.vars after_doc_1) ∧
  ∃ _id oid,
    get doc_unprintable_id "_id" = Ok _id ∧ get _id "$oid" = Ok oid ∧
    Migrate.derive_docId doc_unprintable_id = Ok (Some oid) ∧
    ToString oid = Throw TypeError.
Proof.
  apply (catch_exception_ends_the_run reliable defaults
           [doc_1; doc_unprintable_id; doc_3] [doc_1] [doc_3]
           doc_unprintable_id fresh after_doc_1 after_doc_1 TypeError).
  - reflexivity.
  - reflexivity.
  - apply (ran_through_cons _ doc_1 [] start after_doc_1 after_doc_1);
      [vm_compute; reflexivity|constructor].
  - vm_compute. reflexivity.
Defined.

End MoreRuns.
